(** * betty: the ArchieML assembler (src/assembler.js)

    A shallow embedding of the [Assembler] class and a verification of the
    properties its specification states about it.

    Modelling conventions.
    - A JavaScript string is a Rocq [string]; a character stands for the
      UTF-16 code unit of the same number (code units below 256).
    - The object graph is an explicit store: a list of cells addressed by
      position.  Plain objects are finite maps from property names to
      values, arrays are lists of values together with the hidden [TYPE]
      tag.  References are store positions, so two references to the same
      object alias.
    - Property lookup follows the prototype chain: [k in v] and [v[k]] see
      the members that plain objects, arrays, strings, numbers and booleans
      inherit (the string-keyed members of the built-in prototypes, as
      ECMAScript 2024 lists them).  An inherited method is the value
      [VFun]; an assignment to [__proto__] runs the inherited setter.
      The built-in prototypes themselves are as the language defines
      them: a run that would reach one of them leaves the model.
    - A computation that can throw returns a [completion].  The few
      behaviours the model does not describe return [Outside]: reading the
      prototype object itself through [__proto__] or replacing it, reading
      or writing a property of a built-in function, writing a named
      property of an array, an index beyond its end or a [length] other
      than a natural number within it, calling a member of the class that
      is not an instruction handler through the dispatch.
    - The two option hooks are total functions of their arguments. *)

From Stdlib Require Import Ascii String.
From stdpp Require Import gmap strings list fin_maps.

(** ** Strings *)

Module Str.

(** Code units that [String.prototype.trim] removes: the WhiteSpace and
    LineTerminator productions, restricted to code units below 256. *)
Definition is_ws (c : ascii) : bool :=
  let n := nat_of_ascii c in
  (Nat.eqb n 9 || Nat.eqb n 10 || Nat.eqb n 11 || Nat.eqb n 12
   || Nat.eqb n 13 || Nat.eqb n 32 || Nat.eqb n 160)%bool.

(** LineTerminator, as the [m] flag of a regular expression sees it. *)
Definition is_line_terminator (c : ascii) : bool :=
  let n := nat_of_ascii c in (Nat.eqb n 10 || Nat.eqb n 13)%bool.

Definition newline : ascii := ascii_of_nat 10.
Definition tab : ascii := ascii_of_nat 9.
Definition backslash : ascii := ascii_of_nat 92.

Definition is_empty (s : string) : bool :=
  match s with EmptyString => true | String _ _ => false end.

Fixpoint trim_start (s : string) : string :=
  match s with
  | EmptyString => EmptyString
  | String c r => if is_ws c then trim_start r else s
  end.

Fixpoint trim_end (s : string) : string :=
  match s with
  | EmptyString => EmptyString
  | String c r =>
      let r' := trim_end r in
      if (is_ws c && is_empty r')%bool then EmptyString else String c r'
  end.

(** [s.trim()] *)
Definition trim (s : string) : string := trim_end (trim_start s).

(** Truthiness of a string: everything but the empty string. *)
Definition truthy (s : string) : bool := negb (is_empty s).

(** [s.split(sep)] for a one-character separator: never the empty list. *)
Fixpoint split (sep : ascii) (s : string) : list string :=
  match s with
  | EmptyString => [EmptyString]
  | String c r =>
      if Ascii.eqb c sep then EmptyString :: split sep r
      else match split sep r with
           | h :: t => String c h :: t
           | [] => [String c EmptyString]
           end
  end.

(** [parts.join("")] *)
Definition join (parts : list string) : string :=
  fold_right String.append EmptyString parts.

(** [parts.join(sep)] *)
Fixpoint join_with (sep : string) (parts : list string) : string :=
  match parts with
  | [] => EmptyString
  | [p] => p
  | p :: rest => p +:+ sep +:+ join_with sep rest
  end.

(** [s.replace(/c/g, "")] for a single character [c]. *)
Fixpoint remove_all (c : ascii) (s : string) : string :=
  match s with
  | EmptyString => EmptyString
  | String d r => if Ascii.eqb d c then remove_all c r else String d (remove_all c r)
  end.

(** [s.replace(/c/g, by)] for a single character [c]. *)
Fixpoint replace_all (c : ascii) (by_ : string) (s : string) : string :=
  match s with
  | EmptyString => EmptyString
  | String d r =>
      if Ascii.eqb d c then by_ +:+ replace_all c by_ r
      else String d (replace_all c by_ r)
  end.

(** [key.replace(/^[\.+]*/, "")]: drop the leading run of dots and pluses. *)
Fixpoint strip_dots_plus (s : string) : string :=
  match s with
  | EmptyString => EmptyString
  | String c r =>
      if (Ascii.eqb c "." || Ascii.eqb c "+")%bool then strip_dots_plus r else s
  end.

(** [s.replace(/^\\/m, "")]: without the [g] flag only the first match is
    replaced; with the [m] flag [^] matches at the start of the input and
    after every line terminator. *)
Fixpoint strip_backslash_from (at_line_start : bool) (s : string) : string :=
  match s with
  | EmptyString => EmptyString
  | String c r =>
      if (at_line_start && Ascii.eqb c backslash)%bool then r
      else String c (strip_backslash_from (is_line_terminator c) r)
  end.

Definition strip_backslash (s : string) : string := strip_backslash_from true s.

(** [s[0]] *)
Definition first (s : string) : option ascii :=
  match s with EmptyString => None | String c _ => Some c end.

(** [s[0] == c], where [s[0]] is [undefined] on the empty string. *)
Definition first_is (c : ascii) (s : string) : bool :=
  match first s with Some d => Ascii.eqb d c | None => false end.

Definition is_digit (c : ascii) : bool :=
  let n := nat_of_ascii c in (Nat.leb 48 n && Nat.leb n 57)%bool.

Fixpoint digits_value (acc : nat) (s : string) : option nat :=
  match s with
  | EmptyString => Some acc
  | String c r =>
      if is_digit c then digits_value (10 * acc + (nat_of_ascii c - 48)) r
      else None
  end.

(** A property name is an integer index when it is the canonical decimal
    spelling of a natural number: digits only, no leading zero. *)
Definition index_of (s : string) : option nat :=
  match s with
  | EmptyString => None
  | String c r =>
      if (Ascii.eqb c "0" && negb (is_empty r))%bool then None
      else digits_value 0 s
  end.

Fixpoint has_backslash (s : string) : bool :=
  match s with
  | EmptyString => false
  | String c r => (Ascii.eqb c backslash || has_backslash r)%bool
  end.

End Str.

(** ** Values and the store *)

Abbreviation loc := nat.

(** The values the assembler handles: [undefined], booleans and numbers
    (which only a hook or a [length] read can produce), strings,
    references to objects and arrays of the store, and the built-in methods
    that a property read finds on a prototype. *)
Inductive jsval :=
| VUndef
| VBool (b : bool)
| VNum (n : N)
| VStr (s : string)
| VRef (l : loc)
| VFun (name : string).

(** The hidden [TYPE] tag of an array. *)
Inductive subtype := Standard | Simple | Freeform.

Inductive cell :=
| Obj (props : gmap string jsval)
| Arr (tag : option subtype) (elems : list jsval).

(** What a [TypeError] was thrown for. *)
Inductive type_error :=
| NotAFunction          (* calling a value that is not a function *)
| InOnPrimitive         (* [k in x] with [x] not an object *)
| PropertyOfUndefined   (* reading or calling a property of [undefined] *)
| WriteToPrimitive      (* strict-mode assignment to a property of a primitive *)
| RedefineProperty.     (* [Object.defineProperty] changing a frozen property *)

(** Behaviour outside the model. *)
Inductive boundary :=
| ArrayPropertyWrite    (* [a[k] = v] on an array with [k] a name, an index
                           beyond the end, or a length that is beyond the
                           end or whose conversion is not followed *)
| PrototypeObject       (* reading [v.__proto__], or replacing the prototype *)
| BuiltinFunction       (* a property of a built-in function *)
| ForeignMember         (* dispatch to a member that is not an instruction handler *)
| BadReference.         (* a reference a hook made up *)

Inductive completion (A : Type) :=
| Normal (a : A)
| Throw (e : type_error)
| Outside (b : boundary).
Arguments Normal {A} a.
Arguments Throw {A} e.
Arguments Outside {A} b.

(** Sequencing: the first throw (or step outside the model) ends the
    computation.  stdpp's notation [x ← c; k] is used for it. *)
Instance completion_bind : MBind completion := fun A B f c =>
  match c with
  | Normal a => f a
  | Throw e => Throw e
  | Outside b => Outside b
  end.

Instance subtype_eq_dec : EqDecision subtype.
Proof. solve_decision. Defined.

Instance jsval_eq_dec : EqDecision jsval.
Proof. solve_decision. Defined.

(** [typeof v] *)
Definition typeof (v : jsval) : string :=
  match v with
  | VUndef => "undefined"
  | VBool _ => "boolean"
  | VNum _ => "number"
  | VStr _ => "string"
  | VRef _ => "object"
  | VFun _ => "function"
  end.

(** ToBoolean *)
Definition truthy (v : jsval) : bool :=
  match v with
  | VUndef => false
  | VBool b => b
  | VNum n => negb (N.eqb n 0)
  | VStr s => Str.truthy s
  | VRef _ => true
  | VFun _ => true
  end.

(** String concatenation coerces [undefined] to the text "undefined". *)
Definition to_str (o : option string) : string :=
  match o with Some s => s | None => "undefined" end.

(** A key or payload as a value. *)
Definition of_opt (o : option string) : jsval :=
  match o with Some s => VStr s | None => VUndef end.

Definition root : loc := 0.

(** [new] object or array: the fresh cell goes to the end of the store. *)
Definition alloc (h : list cell) (c : cell) : list cell * loc :=
  (h ++ [c], length h).

(** [v instanceof Array] *)
Definition is_array (h : list cell) (v : jsval) : bool :=
  match v with
  | VRef l => match h !! l with Some (Arr _ _) => true | _ => false end
  | _ => false
  end.

(** *** Inherited members

    The string-keyed members of the built-in prototypes.  All of them are
    methods, except [__proto__], an accessor of [Object.prototype], and
    [length], which arrays and strings have as a property of their own. *)
Definition object_prototype : list string :=
  [ "constructor"; "__defineGetter__"; "__defineSetter__"; "hasOwnProperty";
    "__lookupGetter__"; "__lookupSetter__"; "isPrototypeOf";
    "propertyIsEnumerable"; "toString"; "valueOf"; "__proto__";
    "toLocaleString" ].

Definition array_prototype : list string :=
  [ "constructor"; "at"; "concat"; "copyWithin"; "fill"; "find"; "findIndex";
    "findLast"; "findLastIndex"; "lastIndexOf"; "pop"; "push"; "reverse";
    "shift"; "unshift"; "slice"; "sort"; "splice"; "includes"; "indexOf";
    "join"; "keys"; "entries"; "values"; "forEach"; "filter"; "flat";
    "flatMap"; "map"; "every"; "some"; "reduce"; "reduceRight";
    "toLocaleString"; "toString"; "toReversed"; "toSorted"; "toSpliced";
    "with" ].

Definition string_prototype : list string :=
  [ "constructor"; "anchor"; "at"; "big"; "blink"; "bold"; "charAt";
    "charCodeAt"; "codePointAt"; "concat"; "endsWith"; "fontcolor";
    "fontsize"; "fixed"; "includes"; "indexOf"; "isWellFormed"; "italics";
    "lastIndexOf"; "link"; "localeCompare"; "match"; "matchAll"; "normalize";
    "padEnd"; "padStart"; "repeat"; "replace"; "replaceAll"; "search";
    "slice"; "small"; "split"; "strike"; "sub"; "substr"; "substring"; "sup";
    "startsWith"; "toString"; "toWellFormed"; "trim"; "trimStart";
    "trimLeft"; "trimEnd"; "trimRight"; "toLocaleLowerCase";
    "toLocaleUpperCase"; "toLowerCase"; "toUpperCase"; "valueOf" ].

Definition number_prototype : list string :=
  [ "constructor"; "toExponential"; "toFixed"; "toPrecision"; "toString";
    "valueOf"; "toLocaleString" ].

Definition boolean_prototype : list string :=
  [ "constructor"; "toString"; "valueOf" ].

(** [k] names a member of the prototype [proto] or of [Object.prototype],
    where every prototype chain ends. *)
Definition inherited (proto : list string) (k : string) : bool :=
  bool_decide (k ∈ proto ++ object_prototype).

(** [v[k]] when [k] is not a property of [v] itself: the inherited method,
    or [undefined]. *)
Definition inherited_member (proto : list string) (k : string) : completion jsval :=
  if String.eqb k "__proto__" then Outside PrototypeObject
  else if inherited proto k then Normal (VFun k)
  else Normal VUndef.

(** [v.__proto__ = x] through the setter of [Object.prototype]: nothing
    happens unless [x] is an object (or a function). *)
Definition set_prototype (h : list cell) (x : jsval) : completion (list cell) :=
  match x with
  | VRef _ | VFun _ => Outside PrototypeObject
  | _ => Normal h
  end.

(** [k in v] *)
Definition has_property (h : list cell) (v : jsval) (k : string) : completion bool :=
  match v with
  | VRef l =>
      match h !! l with
      | Some (Obj m) =>
          Normal (bool_decide (is_Some (m !! k)) || inherited [] k)
      | Some (Arr _ es) =>
          Normal (match Str.index_of k with
                  | Some i => bool_decide (i < length es)
                  | None => String.eqb k "length" || inherited array_prototype k
                  end)
      | None => Outside BadReference
      end
  | VFun _ => Outside BuiltinFunction
  | _ => Throw InOnPrimitive
  end.

(** [v[k]] *)
Definition get_property (h : list cell) (v : jsval) (k : string) : completion jsval :=
  match v with
  | VUndef => Throw PropertyOfUndefined
  | VBool _ => inherited_member boolean_prototype k
  | VNum _ => inherited_member number_prototype k
  | VStr s =>
      match Str.index_of k with
      | Some i => Normal (match String.get i s with
                          | Some c => VStr (String c EmptyString)
                          | None => VUndef
                          end)
      | None => if String.eqb k "length" then Normal (VNum (N.of_nat (String.length s)))
                else inherited_member string_prototype k
      end
  | VRef l =>
      match h !! l with
      | Some (Obj m) =>
          match m !! k with
          | Some x => Normal x
          | None => inherited_member [] k
          end
      | Some (Arr _ es) =>
          match Str.index_of k with
          | Some i => Normal (default VUndef (es !! i))
          | None => if String.eqb k "length" then Normal (VNum (N.of_nat (length es)))
                    else inherited_member array_prototype k
          end
      | None => Outside BadReference
      end
  | VFun _ => Outside BuiltinFunction
  end.

(** The number a value written to the [length] of an array stands for,
    for the values whose conversion the model follows: a number, and a
    string that spells a natural number in canonical decimal form. *)
Definition new_length (x : jsval) : option nat :=
  match x with
  | VNum n => Some (N.to_nat n)
  | VStr s => Str.index_of s
  | _ => None
  end.

(** [v[k] = x], in strict mode.  On an object the property becomes (or
    stays) its own, except that [__proto__], unless the object has a
    property of that name, is the inherited accessor.  On an array an
    index within the elements replaces one, the index just behind them
    appends one, and a [length] that is not beyond them cuts the array
    down to it.  A primitive takes no property; with [__proto__] the
    inherited setter is called and does nothing. *)
Definition set_property (h : list cell) (v : jsval) (k : string) (x : jsval)
  : completion (list cell) :=
  match v with
  | VRef l =>
      match h !! l with
      | Some (Obj m) =>
          if (String.eqb k "__proto__" && negb (bool_decide (is_Some (m !! k))))%bool
          then set_prototype h x
          else Normal (<[l := Obj (<[k := x]> m)]> h)
      | Some (Arr t es) =>
          match Str.index_of k with
          | Some i =>
              if bool_decide (i < length es) then Normal (<[l := Arr t (<[i := x]> es)]> h)
              else if bool_decide (i = length es) then Normal (<[l := Arr t (es ++ [x])]> h)
              else Outside ArrayPropertyWrite
          | None =>
              if String.eqb k "__proto__" then set_prototype h x
              else if String.eqb k "length" then
                match new_length x with
                | Some n =>
                    if bool_decide (n <= length es)
                    then Normal (<[l := Arr t (take n es)]> h)
                    else Outside ArrayPropertyWrite
                | None => Outside ArrayPropertyWrite
                end
              else Outside ArrayPropertyWrite
          end
      | None => Outside BadReference
      end
  | VUndef => Throw PropertyOfUndefined
  | VFun _ => Outside BuiltinFunction
  | VBool _ | VNum _ | VStr _ =>
      if String.eqb k "__proto__" then Normal h else Throw WriteToPrimitive
  end.

(** [a.push(x)] *)
Definition push (h : list cell) (l : loc) (x : jsval) : completion (list cell) :=
  match h !! l with
  | Some (Arr t es) => Normal (<[l := Arr t (es ++ [x])]> h)
  | _ => Outside BadReference
  end.

(** [assignType(a, value)]: [Object.defineProperty] of a property that is
    neither writable nor configurable.  Defining it again with the value it
    has is accepted; with another value it throws. *)
Definition assignType (h : list cell) (l : loc) (t : subtype) : completion (list cell) :=
  match h !! l with
  | Some (Arr None es) => Normal (<[l := Arr (Some t) es]> h)
  | Some (Arr (Some t') es) =>
      if decide (t' = t) then Normal h else Throw RedefineProperty
  | _ => Outside BadReference
  end.

(** [target[TYPE]] for a target known to be an array (or a plain object,
    which has no such property). *)
Definition type_tag (h : list cell) (v : jsval) : option subtype :=
  match v with
  | VRef l => match h !! l with Some (Arr t _) => t | _ => None end
  | _ => None
  end.

(** ** Instructions and options *)

Module Instruction.
Record t := mk { type : string; key : option string; value : option string }.
End Instruction.
Abbreviation instruction := Instruction.t.

Record options := {
  verbose : bool;
  onFieldName : string -> string;
  onValue : jsval -> string -> jsval
}.

(** ** The assembler *)

Module Assembler.

Import Instruction.

(** [a + b] on two operands that are strings or [undefined], as the text
    it has in a string: string concatenation as soon as one operand is a
    string, and the number NaN (whose text is "NaN") when both are
    [undefined]. *)
Definition js_add (a b : option string) : string :=
  match a, b with
  | None, None => "NaN"
  | _, _ => to_str a +:+ to_str b
  end.

(** *** Diagnostics *)

(** [log(...args)]: the lines written to the console, none unless the
    [verbose] option is set. *)
Definition log (opts : options) (args : list string) : list string :=
  if negb (verbose opts) then []
  else [Str.replace_all Str.tab (String Str.backslash "t")
          (Str.replace_all Str.newline (String Str.backslash "n")
             (Str.join_with " " args))].

(** What the console shows for an instruction object, approximately: the
    console's own formatting (quotation marks and escapes around string
    values, line breaks in long objects, a field that is absent rather
    than [undefined]) is not modelled.  Only the number and the order of
    these lines are meant. *)
Definition inspect (i : instruction) : string :=
  "{ type: " +:+ type i +:+ ", key: " +:+ to_str (key i)
    +:+ ", value: " +:+ to_str (value i) +:+ " }".

(** *** The pre-processing pass of [assemble] *)

Module Pre.

(** The local variables of the pass.  [lastValue] refers to an instruction
    object that was also pushed to [processed], so it is kept as the
    position of that instruction in [processed]; [absorbing] says that
    control is inside the [while] loop of the [buffer] case, which takes
    the [buffer] instructions that follow without leaving the case. *)
Record pstate := {
  processed : list instruction;
  lastValue : option nat;
  buffer : list (option string);
  absorbing : bool
}.

Definition init : pstate :=
  {| processed := []; lastValue := None; buffer := []; absorbing := false |}.

(** [lastValue && lastValue.type == "simple"] *)
Definition lastValue_is_simple (st : pstate) : bool :=
  match lastValue st with
  | Some n => match processed st !! n with
              | Some a => String.eqb (type a) "simple"
              | None => false
              end
  | None => false
  end.

(** [mergeBuffer()]: [join] writes [undefined] elements as the empty
    string. *)
Definition mergeBuffer (buffer : list (option string)) : string :=
  Str.strip_backslash (Str.join (map (default "") buffer)).

Definition buffer_instruction (merged : string) : instruction :=
  {| type := "buffer"; key := None; value := Some merged |}.

(** [if (merged.trim()) processed.push({ type: "buffer", value: merged })] *)
Definition push_if_text (processed : list instruction) (merged : string)
  : list instruction :=
  if Str.truthy (Str.trim merged) then processed ++ [buffer_instruction merged]
  else processed.

(** [lastValue.value += merged] *)
Definition append_to_value (merged : string) (i : instruction) : instruction :=
  {| type := type i; key := key i; value := Some (to_str (value i) +:+ merged) |}.

Definition is_structural (t : string) : bool :=
  (String.eqb t "object" || String.eqb t "array"
   || String.eqb t "closeObject" || String.eqb t "closeArray")%bool.

(** One turn of the [for] loop (or of the inner [while] loop when
    [absorbing]), with the messages it passes to [log]. *)
Definition step (st : pstate) (instruction : instruction)
  : pstate * list string :=
  let '(Instruction.mk type key value) := instruction in
  if (absorbing st && String.eqb type "buffer")%bool then
    ({| processed := processed st; lastValue := lastValue st;
        buffer := buffer st ++ [value]; absorbing := true |}, [])
  else if (String.eqb type "simple"
           && (bool_decide (lastValue st = None) || lastValue_is_simple st))%bool then
    ({| processed := processed st ++ [instruction];
        lastValue := Some (length (processed st));
        buffer := []; absorbing := false |}, [])
  else if String.eqb type "simple" then
    ({| processed := processed st; lastValue := lastValue st;
        buffer := buffer st ++ [Some (js_add key value)]; absorbing := true |},
     ["Simple item being ignored"; "Merging buffer instructions..."])
  else if String.eqb type "buffer" then
    ({| processed := processed st; lastValue := lastValue st;
        buffer := buffer st ++ [value]; absorbing := true |},
     ["Merging buffer instructions..."])
  else if (String.eqb type "value" && lastValue_is_simple st)%bool then
    ({| processed := processed st; lastValue := lastValue st;
        buffer := buffer st ++ [Some (to_str key +:+ ":" +:+ to_str value)];
        absorbing := false |}, [])
  else if String.eqb type "value" then
    let merged := mergeBuffer (buffer st) in
    let processed' := push_if_text (processed st) merged in
    ({| processed := processed' ++ [instruction];
        lastValue := Some (length processed');
        buffer := []; absorbing := false |},
     ["Value encountered: " +:+ to_str key])
  else if String.eqb type "flush" then
    let merged := mergeBuffer (buffer st) in
    ({| processed :=
          match buffer st with
          | [] => processed st
          | _ :: _ =>
              match lastValue st with
              | Some n =>
                  if Str.truthy (Str.trim merged)
                  then alter (append_to_value merged) n (processed st)
                  else processed st ++ [buffer_instruction merged]
              | None => processed st ++ [buffer_instruction merged]
              end
          end;
        lastValue := lastValue st; buffer := []; absorbing := false |}, [])
  else if is_structural type then
    let merged := mergeBuffer (buffer st) in
    ({| processed := push_if_text (processed st) merged ++ [instruction];
        lastValue := None; buffer := []; absorbing := false |},
     ["Encountered " +:+ type +:+ " (" +:+ to_str key +:+ "), clearing buffer"])
  else
    ({| processed := processed st ++ [instruction];
        lastValue := None; buffer := buffer st; absorbing := false |}, []).

Fixpoint loop (st : pstate) (instructions : list instruction)
  : pstate * list string :=
  match instructions with
  | [] => (st, [])
  | i :: rest =>
      let '(st1, msgs) := step st i in
      let '(st2, msgs') := loop st1 rest in
      (st2, msgs ++ msgs')
  end.

(** After the loop: "handle leftover garbage in freeform arrays". *)
Definition finish (st : pstate) : list instruction :=
  push_if_text (processed st) (mergeBuffer (buffer st)).

(** The normalized stream and the messages logged while producing it. *)
Definition preprocess (instructions : list instruction)
  : list instruction * list string :=
  let '(st, msgs) := loop init instructions in
  (finish st, msgs ++ ["Clearing out dangling buffer items"]).

End Pre.

(** *** The instance: the output tree and the context stack *)

(** [this.root] is the first cell of the store; [this.stack] is kept with
    its top (the last element of the JavaScript array) at the head. *)
Record state := { heap : list cell; stack : list jsval }.

(** The constructor: [this.root = {}; this.stack = [this.root]]. *)
Definition init : state := {| heap := [Obj ∅]; stack := [VRef root] |}.

Definition with_heap (st : state) (h : list cell) : state :=
  {| heap := h; stack := stack st |}.

(** [get top()] *)
Definition top (st : state) : jsval := default VUndef (head (stack st)).

Definition pushContext (st : state) (scope : jsval) : state :=
  {| heap := heap st; stack := scope :: stack st |}.

Definition popContext (st : state) : jsval * state :=
  let scope := default VUndef (head (stack st)) in
  let rest := tail (stack st) in
  (if truthy scope then scope else VRef root,
   {| heap := heap st;
      stack := match rest with [] => [VRef root] | _ :: _ => rest end |}).

(** [reset(scope)] *)
Definition reset (st : state) (scope : jsval) : state :=
  {| heap := heap st;
     stack := if truthy scope then [scope; VRef root] else [VRef root] |}.

Definition getTarget (st : state) (key : option string) : completion (jsval * state) :=
  match key with
  | None => Throw PropertyOfUndefined
  | Some k =>
      if Str.first_is "." k then Normal (top st, st)
      else Normal (VRef root, reset st VUndef)
  end.

(** *** Key paths *)

(** A key that is not a string is used as an array; [undefined] has no
    [filter]. *)
Definition normalizeKeypath (opts : options) (keypath : option string)
  : completion (list string) :=
  match keypath with
  | None => Throw PropertyOfUndefined
  | Some k =>
      Normal (map (onFieldName opts) (filter (fun s => Str.truthy s) (Str.split "." k)))
  end.

(** [keypath.pop()] leaves the list without its last element. *)
Definition pop_terminal (keypath : list string) : option string * list string :=
  (last keypath, removelast keypath).

(** The [for] loop of [getPath]; [None] is its early [return undefined]. *)
Fixpoint getPath_loop (h : list cell) (branch : jsval) (keypath : list string)
  : completion (option jsval) :=
  match keypath with
  | [] => Normal (Some branch)
  | k :: rest =>
      present ← has_property h branch k;
      if negb present then Normal None
      else next ← get_property h branch k; getPath_loop h next rest
  end.

Definition getPath (opts : options) (h : list cell) (object : jsval)
  (keypath : option string) : completion jsval :=
  segments ← normalizeKeypath opts keypath;
  let '(terminal, keypath) := pop_terminal segments in
  reached ← getPath_loop h object keypath;
  match reached with
  | None => Normal VUndef
  | Some branch =>
      if truthy branch then get_property h branch (to_str terminal)
      else Normal branch
  end.

(** The [for] loop of [setPath]. *)
Fixpoint setPath_loop (h : list cell) (branch : jsval) (keypath : list string)
  : completion (list cell * jsval) :=
  match keypath with
  | [] => Normal (h, branch)
  | k :: rest =>
      present ← has_property h branch k;
      current ← (if present then get_property h branch k else Normal VUndef);
      if (negb present || negb (String.eqb (typeof current) "object"))%bool then
        let '(h1, fresh) := alloc h (Obj ∅) in
        h2 ← set_property h1 branch k (VRef fresh);
        next ← get_property h2 branch k;
        setPath_loop h2 next rest
      else setPath_loop h current rest
  end.

(** [if (typeof value == "string") value = value.trim()] *)
Definition trim_if_string (v : jsval) : jsval :=
  match v with VStr s => VStr (Str.trim s) | _ => v end.

Definition setPath (opts : options) (h : list cell) (object : jsval)
  (keypath : option string) (value : jsval) : completion (list cell * jsval) :=
  segments ← normalizeKeypath opts keypath;
  let '(terminal, keypath) := pop_terminal segments in
  terminal ← match terminal with
             | Some t => Normal (Str.remove_all "+" t)
             | None => Throw PropertyOfUndefined
             end;
  '(h1, branch) ← setPath_loop h object keypath;
  let value := trim_if_string value in
  h2 ← set_property h1 branch terminal (onValue opts value terminal);
  Normal (h2, branch).

(** *** Adding values to objects and arrays *)

(** [{ type: tag, value }] *)
Definition record (tag value : jsval) : cell :=
  Obj (<["value" := value]> (<["type" := tag]> ∅)).

(** [target.push(x)] for a target that is a reference to an array. *)
Definition push_to (h : list cell) (target : jsval) (x : jsval) : completion (list cell) :=
  match target with
  | VRef l => push h l x
  | _ => Outside BadReference
  end.

Definition assignType_to (h : list cell) (target : jsval) (t : subtype)
  : completion (list cell) :=
  match target with
  | VRef l => assignType h l t
  | _ => Outside BadReference
  end.

(** [target[target.length - 1]] *)
Definition last_element (h : list cell) (target : jsval) : jsval :=
  match target with
  | VRef l => match h !! l with
              | Some (Arr _ es) => default VUndef (last es)
              | _ => VUndef
              end
  | _ => VUndef
  end.

(** The [default] case of [addToArray]. *)
Definition addToArray_default (opts : options) (h : list cell) (target : jsval)
  (key : option string) (value : jsval) : completion (list cell) :=
  h ← (if bool_decide (type_tag h target = None)
       then assignType_to h target Standard else Normal h);
  let last := last_element h target in
  fresh ← (if negb (truthy last) then Normal true
           else found ← getPath opts h last key; Normal (truthy found));
  '(h, last) ← (if fresh : bool then
                  let '(h1, o) := alloc h (Obj ∅) in
                  h2 ← push_to h1 target (VRef o);
                  Normal (h2, VRef o)
                else Normal (h, last));
  '(h, _) ← setPath opts h last key (trim_if_string value);
  Normal h.

Definition addToArray (opts : options) (h : list cell) (target : jsval)
  (key : option string) (value : jsval) : completion (list cell) :=
  match type_tag h target with
  | Some Freeform =>
      let value := trim_if_string value in
      key ← match key with
            | Some k => Normal (Str.strip_dots_plus k)
            | None => Throw PropertyOfUndefined
            end;
      let '(h1, r) := alloc h (record (VStr key) value) in
      push_to h1 target (VRef r)
  | Some Simple => Normal h
  | _ => addToArray_default opts h target key value
  end.

Definition append (opts : options) (h : list cell) (target : jsval)
  (key : option string) (value : jsval) : completion (list cell) :=
  if is_array h target then addToArray opts h target key value
  else
    '(h, _) ← setPath opts h target key (trim_if_string value);
    Normal h.

(** *** The instruction handlers *)

(** [value.trim()] on a payload. *)
Definition trim_payload (value : option string) : completion string :=
  match value with
  | Some s => Normal (Str.trim s)
  | None => Throw PropertyOfUndefined
  end.

(** In the [freeform] case the source first tests
    [typeof value == "object"]; [value] is the result of [trim] there, a
    string, so the test fails and the branch that closes the array and
    calls [value] again is never entered. *)
Definition value (opts : options) (st : state) (key value : option string)
  : completion state :=
  let target := top st in
  value ← trim_payload value;
  if is_array (heap st) target then
    match type_tag (heap st) target with
    | Some Simple => Normal st
    | Some Freeform =>
        let '(h1, r) := alloc (heap st) (record (of_opt key) (VStr value)) in
        h2 ← push_to h1 target (VRef r);
        Normal (with_heap st h2)
    | _ =>
        h ← append opts (heap st) target key (VStr value);
        Normal (with_heap st h)
    end
  else
    h ← append opts (heap st) target key (VStr value);
    Normal (with_heap st h).

(** In the [freeform] case [key + value] is the number NaN when both are
    [undefined], and a number has no [trim]. *)
Definition simple (opts : options) (st : state) (key value : option string)
  : completion state :=
  if is_array (heap st) (top st) then
    h ← (match type_tag (heap st) (top st) with
         | Some Simple | None =>
             h1 ← assignType_to (heap st) (top st) Simple;
             v ← trim_payload value;
             push_to h1 (top st) (VStr v)
         | _ => Normal (heap st)
         end);
    h ← (if bool_decide (type_tag h (top st) = Some Freeform) then
           text ← match key, value with
                  | None, None => Throw NotAFunction
                  | _, _ => Normal (Str.trim (js_add key value))
                  end;
           let '(h1, r) := alloc h (record (VStr "text") (VStr text)) in
           push_to h1 (top st) (VRef r)
         else Normal h);
    Normal (with_heap st h)
  else Normal st.

Definition object (opts : options) (st : state) (key : option string)
  : completion state :=
  '(target, st) ← getTarget st key;
  found ← getPath opts (heap st) target key;
  let '(h, object) :=
    if negb (String.eqb (typeof found) "object") then
      let '(h1, o) := alloc (heap st) (Obj ∅) in (h1, VRef o)
    else (heap st, found) in
  h ← append opts h target key object;
  Normal (pushContext (with_heap st h) object).

Definition closeObject (st : state) : state := snd (popContext st).

(** The array is created twice in the source; the first one is dropped
    unused and is not allocated here. *)
Definition array (opts : options) (st : state) (key : option string)
  : completion state :=
  '(target, st) ← getTarget st key;
  let '(h, a) := alloc (heap st) (Arr None []) in
  segments ← normalizeKeypath opts key;
  h ← (match last segments with
       | None => Throw PropertyOfUndefined
       | Some l =>
           if Str.first_is "+" l then assignType h a Freeform else Normal h
       end);
  h ← append opts h target key (VRef a);
  Normal (pushContext (with_heap st h) (VRef a)).

(** [!(this.top instanceof Array) && this.top != this.root] *)
Definition closeArray_guard (st : state) : bool :=
  (negb (is_array (heap st) (top st))
   && negb (bool_decide (top st = VRef root)))%bool.

(** The [while] loop of [closeArray], run for at most [fuel] turns. *)
Fixpoint closeArray_loop (fuel : nat) (st : state) : state :=
  match fuel with
  | 0 => st
  | S fuel' =>
      if closeArray_guard st then closeArray_loop fuel' (snd (popContext st))
      else st
  end.

(** Every turn pops one scope, and the loop stops at the latest when one
    scope is left: as many turns as the stack is deep are enough
    ([closeArray_loop_done] below). *)
Definition closeArray (st : state) : state :=
  let st1 := closeArray_loop (S (length (stack st))) st in
  if is_array (heap st1) (top st1) then snd (popContext st1) else st1.

(** One text record per line that is not blank. *)
Fixpoint push_lines (h : list cell) (target : jsval) (lines : list string)
  : completion (list cell) :=
  match lines with
  | [] => Normal h
  | v :: rest =>
      let '(h1, r) := alloc h (record (VStr "text") (VStr (Str.trim v))) in
      h2 ← push_to h1 target (VRef r);
      push_lines h2 target rest
  end.

Definition buffer (st : state) (key value : option string) : completion state :=
  let target := top st in
  match target with
  | VUndef => Throw PropertyOfUndefined
  | _ =>
      if bool_decide (type_tag (heap st) target = Some Freeform) then
        text ← match value with
               | Some s => Normal s
               | None => Throw PropertyOfUndefined
               end;
        let split := filter (fun s => Str.truthy (Str.trim s))
                       (Str.split Str.newline text) in
        h ← push_lines (heap st) target split;
        Normal (with_heap st h)
      else Normal st
  end.

Definition flush (st : state) : state := st.
Definition skipped (st : state) : state := st.

(** *** Dispatch: [this[type](key, value)] *)

(** The nine instruction kinds that have a handler. *)
Definition recognized (type : string) : bool :=
  bool_decide (type ∈ ["simple"; "buffer"; "value"; "object"; "array";
                       "closeObject"; "closeArray"; "flush"; "skipped"]).

(** The other callable members an instance has, its own and inherited. *)
Definition other_member (type : string) : bool :=
  bool_decide (type ∈ ["constructor"; "log"; "pushContext"; "popContext";
                       "getTarget"; "reset"; "normalizeKeypath"; "getPath";
                       "setPath"; "assemble"; "append"; "addToArray";
                       "hasOwnProperty"; "isPrototypeOf";
                       "propertyIsEnumerable"; "toLocaleString"; "toString";
                       "valueOf"; "__defineGetter__"; "__defineSetter__";
                       "__lookupGetter__"; "__lookupSetter__"]).

Definition dispatch (opts : options) (st : state) (i : instruction)
  : completion state :=
  let '(Instruction.mk type key payload) := i in
  if String.eqb type "value" then value opts st key payload
  else if String.eqb type "simple" then simple opts st key payload
  else if String.eqb type "object" then object opts st key
  else if String.eqb type "closeObject" then Normal (closeObject st)
  else if String.eqb type "array" then array opts st key
  else if String.eqb type "closeArray" then Normal (closeArray st)
  else if String.eqb type "buffer" then buffer st key payload
  else if String.eqb type "flush" then Normal (flush st)
  else if String.eqb type "skipped" then Normal (skipped st)
  else if other_member type then Outside ForeignMember
  else Throw NotAFunction.

(** The second loop of [assemble], with the lines it logs. *)
Fixpoint build (opts : options) (st : state) (processed : list instruction)
  : completion state * list string :=
  match processed with
  | [] => (Normal st, [])
  | i :: rest =>
      let line := log opts ["> Assembling: " +:+ type i +:+ "/" +:+ to_str (key i)
                              +:+ "/" +:+ to_str (Instruction.value i)] in
      match dispatch opts st i with
      | Normal st1 =>
          let '(result, lines) := build opts st1 rest in (result, line ++ lines)
      | failure => (failure, line)
      end
  end.

(** [assemble(instructions)] on a fresh instance: the store at the end (the
    document is the tree under its first cell) and the console output. *)
Definition assemble (opts : options) (instructions : list instruction)
  : completion (list cell) * list string :=
  let raw := if verbose opts
             then log opts ["Raw instructions stream"] ++ map inspect instructions
             else [] in
  let '(processed, msgs) := Pre.preprocess instructions in
  let trace := flat_map (fun m => log opts [m]) msgs in
  let post := if verbose opts
              then log opts ["Post-process instructions"] ++ map inspect processed
              else [] in
  let '(result, lines) := build opts init processed in
  (st ← result; Normal (heap st), raw ++ trace ++ post ++ lines).

End Assembler.

(** ** Vocabulary of the properties *)

Import Assembler.

(** Options whose hooks leave field names and values as they are. *)
Definition plain (verbose : bool) : options :=
  {| verbose := verbose; onFieldName := fun s => s; onValue := fun v _ => v |}.

(** The same hooks with the [verbose] flag set to [b]. *)
Definition with_verbose (b : bool) (o : options) : options :=
  {| verbose := b; onFieldName := onFieldName o; onValue := onValue o |}.

(** The bottom of the context stack is the document root (so the stack is
    not empty). *)
Definition stack_ok (st : state) : Prop := last (stack st) = Some (VRef root).

(** Every array that has a subtype in [h] is still an array with that
    subtype in [h']. *)
Definition tags_kept (h h' : list cell) : Prop :=
  forall l t es, h !! l = Some (Arr (Some t) es) ->
                 exists es', h' !! l = Some (Arr (Some t) es').

Definition is_skipped (i : instruction) : bool :=
  String.eqb (Instruction.type i) "skipped".

(** The pre-processing loop run over a whole stream. *)
Definition pre_run (instructions : list instruction) : Pre.pstate :=
  fst (Pre.loop Pre.init instructions).

(** The normalized stream. *)
Definition normalized (instructions : list instruction) : list instruction :=
  fst (Pre.preprocess instructions).

(** What the specification says a structural instruction does to the
    pre-processing state: flush the pending buffer by the rule of the
    [flush] instruction, clear the anchor, pass the instruction through. *)
Definition spec_structural_step (st : Pre.pstate) (i : instruction) : Pre.pstate :=
  let flushed :=
    fst (Pre.step st {| Instruction.type := "flush"; Instruction.key := None;
                        Instruction.value := None |}) in
  {| Pre.processed := Pre.processed flushed ++ [i]; Pre.lastValue := None;
     Pre.buffer := []; Pre.absorbing := false |}.

(** What the specification says happens at the end of the stream: the same
    flush. *)
Definition spec_finish (st : Pre.pstate) : list instruction :=
  Pre.processed
    (fst (Pre.step st {| Instruction.type := "flush"; Instruction.key := None;
                         Instruction.value := None |})).

(** Neither the key nor the payload of [i] contains a backslash. *)
Definition no_backslash (i : instruction) : bool :=
  (negb (Str.has_backslash (to_str (Instruction.key i)))
   && negb (Str.has_backslash (to_str (Instruction.value i))))%bool.

Definition not_flush (i : instruction) : bool :=
  negb (String.eqb (Instruction.type i) "flush").

(** The instruction streams of the examples. *)
Definition instr (type key value : string) : instruction :=
  {| Instruction.type := type; Instruction.key := Some key;
     Instruction.value := Some value |}.

Definition bare (type : string) : instruction :=
  {| Instruction.type := type; Instruction.key := None; Instruction.value := None |}.

Definition payload (type value : string) : instruction :=
  {| Instruction.type := type; Instruction.key := None;
     Instruction.value := Some value |}.

Definition keyed (type key : string) : instruction :=
  {| Instruction.type := type; Instruction.key := Some key;
     Instruction.value := None |}.

Definition article_stream : list instruction :=
  [ keyed "object" "article"; instr "value" "title" "Hello";
    instr "value" "body" "World"; bare "closeObject" ].

(** The failure the specification asks for on an unrecognized kind: some
    error that is not the crash of calling an undefined method. *)
Definition fails_as_specified (r : completion (list cell)) : Prop :=
  exists e, r = Throw e /\ e <> NotAFunction.

Definition bogus_stream : list instruction :=
  [ instr "value" "a" "x"; instr "bogus" "k" "v" ].

Definition skipped_stream : list instruction :=
  [ instr "value" "k" "v"; bare "skipped"; payload "buffer" "x"; bare "flush" ].

(** The anchor, when there is one, is an instruction of [processed] that is
    not a [skipped] one. *)
Definition anchor_ok (st : Pre.pstate) : Prop :=
  forall n, Pre.lastValue st = Some n ->
            exists a, Pre.processed st !! n = Some a /\ is_skipped a = false.

(** The state in which a second pass stands after it has read the
    instructions a first pass has produced so far: the same normalized
    stream and the same anchor, no pending text. *)
Definition settled (st : Pre.pstate) : Pre.pstate :=
  {| Pre.processed := Pre.processed st; Pre.lastValue := Pre.lastValue st;
     Pre.buffer := []; Pre.absorbing := false |}.

(** The pending text pieces are free of backslashes. *)
Definition buffer_clean (st : Pre.pstate) : Prop :=
  Forall (fun b => Str.has_backslash (default "" b) = false) (Pre.buffer st).

(** What relates a first pass to a second pass over its output. *)
Definition second_pass_agrees (st : Pre.pstate) : Prop :=
  buffer_clean st
  /\ fst (Pre.loop Pre.init (Pre.processed st)) = settled st.

Definition backslash_stream : list instruction :=
  [ payload "buffer" (String Str.backslash (String Str.backslash "x")) ].

Definition flushed_stream : list instruction :=
  [ payload "buffer" "a"; bare "flush"; payload "buffer" "b"; bare "flush" ].

Definition plain_stream : list instruction :=
  [ payload "simple" "red"; instr "value" "k" "v"; payload "buffer" "more";
    keyed "array" "items"; instr "value" "name" "a"; payload "buffer" "text";
    bare "skipped"; instr "simple" "x" "y"; bare "closeArray";
    payload "buffer" "tail" ].

(** A value written through a key path that leads into an array, and the
    same array opened again as the current scope. *)
Definition index_stream : list instruction :=
  [ keyed "array" "a"; bare "closeArray"; instr "value" "a.0" "x" ].

Definition reopened_stream : list instruction :=
  index_stream ++ [ keyed "object" "a"; payload "simple" "y" ].

Definition tags_stream : list instruction :=
  [ keyed "array" "tags"; payload "simple" "red"; instr "value" "k" "v";
    keyed "object" ".o"; payload "buffer" "text"; payload "simple" "green";
    bare "closeArray" ].

(** ** Further vocabulary: key paths, the store, the console *)

(** The key consists of dots only (the empty key included). *)
Fixpoint only_dots (k : string) : bool :=
  match k with
  | EmptyString => true
  | String c r => (Ascii.eqb c "." && only_dots r)%bool
  end.

(** The segment contains no dot. *)
Fixpoint no_dot (s : string) : bool :=
  match s with
  | EmptyString => true
  | String c r => (negb (Ascii.eqb c ".") && no_dot r)%bool
  end.

(** In the store [h], the property [k] of [v] exists and holds a reference
    to [c]. *)
Definition edge (h : list cell) (v : jsval) (k : string) (c : loc) : Prop :=
  has_property h v k = Normal true /\ get_property h v k = Normal (VRef c).

(** The instruction closes a scope or is one of the two markers. *)
Definition closes_or_marks (i : instruction) : bool :=
  bool_decide (Instruction.type i ∈ ["closeObject"; "closeArray"; "flush"; "skipped"]).

(** The instruction adds content and opens or closes nothing. *)
Definition adds_content (i : instruction) : bool :=
  bool_decide (Instruction.type i ∈ ["value"; "simple"; "buffer"; "flush"; "skipped"]).

(** A scope that the loop of [closeArray] pops: neither an array nor the
    root. *)
Definition popped_by_closeArray (h : list cell) (x : jsval) : Prop :=
  is_array h x = false /\ x <> VRef root.

Definition closing_stream : list instruction :=
  [ bare "closeObject"; bare "closeArray"; bare "flush"; bare "skipped";
    bare "closeArray"; bare "closeObject" ].

(** The kinds the pre-processing pass hands on as they are: every kind but
    the three that carry text and [flush]. *)
Definition handed_on (t : string) : bool :=
  negb (bool_decide (t ∈ ["simple"; "buffer"; "value"; "flush"])).

(** The anchor, when there is one, is an instruction of [processed] whose
    kind [p] rejects. *)
Definition anchor_rejected (p : string -> bool) (st : Pre.pstate) : Prop :=
  forall n, Pre.lastValue st = Some n ->
            exists a, Pre.processed st !! n = Some a /\ p (Instruction.type a) = false.

(** One more instruction is owed to the normalized stream while text is
    pending. *)
Definition pending (st : Pre.pstate) : nat :=
  match Pre.buffer st with [] => 0 | _ :: _ => 1 end.

Definition mixed_stream : list instruction :=
  [ payload "buffer" "a"; keyed "object" "o"; instr "value" "k" "v";
    payload "buffer" "b"; bare "flush"; instr "odd" "x" "y"; bare "skipped";
    payload "simple" "s"; bare "closeObject" ].

(** The character [c] occurs in [s]. *)
Fixpoint contains (c : ascii) (s : string) : bool :=
  match s with
  | EmptyString => false
  | String d r => (Ascii.eqb d c || contains c r)%bool
  end.

(** The updates of the store the handlers are made of: a new cell, a
    property written to an object, a subtype given to an array that has
    none, an element appended to an array, an element of an array
    replaced, an array cut down to its first elements. *)
Inductive store_step : list cell -> list cell -> Prop :=
| step_new h c : store_step h (h ++ [c])
| step_write h l m k x :
    h !! l = Some (Obj m) -> store_step h (<[l := Obj (<[k := x]> m)]> h)
| step_tag h l t es :
    h !! l = Some (Arr None es) -> store_step h (<[l := Arr (Some t) es]> h)
| step_push h l t es x :
    h !! l = Some (Arr t es) -> store_step h (<[l := Arr t (es ++ [x])]> h)
| step_replace h l t es i x :
    h !! l = Some (Arr t es) -> i < length es ->
    store_step h (<[l := Arr t (<[i := x]> es)]> h)
| step_cut h l t es n :
    h !! l = Some (Arr t es) -> store_step h (<[l := Arr t (take n es)]> h).

(** Nothing is taken away from [h] in [h']: every cell is still there, an
    object is still an object and has the properties it had, an array is
    still an array. *)
Definition store_grows (h h' : list cell) : Prop :=
  (forall l m, h !! l = Some (Obj m) ->
               exists m', h' !! l = Some (Obj m')
                          /\ forall k, is_Some (m !! k) -> is_Some (m' !! k))
  /\ (forall l t es, h !! l = Some (Arr t es) ->
                     exists t' es', h' !! l = Some (Arr t' es')).

(** The lines of a buffered text that the [buffer] handler keeps. *)
Definition kept_lines (text : string) : list string :=
  filter (fun s => Str.truthy (Str.trim s)) (Str.split Str.newline text).

(** A text record of a freeform array. *)
Definition text_record (line : string) : cell :=
  record (VStr "text") (VStr (Str.trim line)).


(** Streams that close a simple array and then address it by a key path. *)
Definition cut_stream : list instruction :=
  [ keyed "array" "a"; payload "simple" "x"; bare "closeArray";
    instr "value" "a.length" "0" ].

Definition replaced_stream : list instruction :=
  [ keyed "array" "a"; payload "simple" "x"; bare "closeArray";
    keyed "object" "a.0" ].

(** A standard array given a key that names an inherited method. *)
Definition inherited_key_stream : list instruction :=
  [ keyed "array" "items"; instr "value" "name" "a";
    instr "value" "constructor" "c" ].

(** ** Proofs *)

(** *** Sequencing *)

Lemma bind_Normal {A B} (c : completion A) (f : A -> completion B) b :
  (c ≫= f) = Normal b -> exists a, c = Normal a /\ f a = Normal b.
Proof. destruct c; simpl; intros H; try discriminate. eauto. Qed.

Ltac bind_inv H :=
  let a := fresh "a" in
  let Ha := fresh "Ha" in
  apply bind_Normal in H; destruct H as (a & Ha & H).

(** *** The worked example *)

(** C1: the stream object("article"); value("title","Hello");
    value("body","World"); closeObject() assembles to the document
    {article: {title: "Hello", body: "World"}}: the root maps "article" to
    the object pushed by the object instruction, and both values are stored
    in that object. *)
Theorem C1_nested_object_then_scalars (verbose : bool) :
  fst (assemble (plain verbose) article_stream)
  = Normal [ Obj {[ "article" := VRef 1 ]};
             Obj (<["body" := VStr "World"]> {[ "title" := VStr "Hello" ]}) ].
Proof. destruct verbose; vm_compute; reflexivity. Qed.

(** *** The verbose flag *)

Lemma dispatch_verbose b o st i : dispatch (with_verbose b o) st i = dispatch o st i.
Proof. reflexivity. Qed.

Lemma build_verbose b o l : forall st,
  fst (build (with_verbose b o) st l) = fst (build o st l).
Proof.
  induction l as [|i rest IH]; intros st; simpl; [reflexivity|].
  rewrite dispatch_verbose.
  destruct (dispatch o st i) as [st1| |]; simpl; try reflexivity.
  specialize (IH st1).
  destruct (build (with_verbose b o) st1 rest), (build o st1 rest); simpl in *.
  exact IH.
Qed.

Lemma assemble_result o instructions :
  fst (assemble o instructions)
  = (st ← fst (build o init (normalized instructions)); Normal (heap st)).
Proof.
  unfold assemble, normalized.
  destruct (Pre.preprocess instructions) as [processed msgs]; simpl.
  destruct (build o init processed); reflexivity.
Qed.

(** C10: whatever the hooks and the stream, assembling with [verbose] set
    and with [verbose] cleared gives the same result (the same document, or
    the same failure), and the builder ends in the same state, context stack
    included; the normalized stream does not depend on the options at all. *)
Theorem C10_verbose_does_not_change_the_document (o : options)
    (instructions : list instruction) :
  fst (assemble (with_verbose true o) instructions)
  = fst (assemble (with_verbose false o) instructions)
  /\ fst (build (with_verbose true o) init (normalized instructions))
     = fst (build (with_verbose false o) init (normalized instructions)).
Proof.
  rewrite !assemble_result, !build_verbose. split; reflexivity.
Qed.

(** *** The context stack *)

Lemma stack_ok_push st scope : stack_ok st -> stack_ok (pushContext st scope).
Proof.
  unfold stack_ok, pushContext; simpl. intros H. rewrite last_cons, H. reflexivity.
Qed.

Lemma stack_ok_pop st : stack_ok st -> stack_ok (snd (popContext st)).
Proof.
  unfold stack_ok, popContext; simpl.
  destruct (stack st) as [|s [|s' rest]]; try reflexivity.
  rewrite last_cons_cons. exact (fun H => H).
Qed.

Lemma stack_ok_reset st scope : stack_ok (reset st scope).
Proof. unfold stack_ok, reset; simpl. destruct (truthy scope); reflexivity. Qed.

Lemma stack_ok_with_heap st h : stack_ok st -> stack_ok (with_heap st h).
Proof. exact (fun H => H). Qed.

Lemma stack_ok_getTarget st key target st' :
  getTarget st key = Normal (target, st') -> stack_ok st -> stack_ok st'.
Proof.
  unfold getTarget. destruct key as [k|]; [|discriminate].
  destruct (Str.first_is "." k); intros [= <- <-] H; [exact H | apply stack_ok_reset].
Qed.

Lemma stack_ok_closeArray_loop fuel : forall st, stack_ok st -> stack_ok (closeArray_loop fuel st).
Proof.
  induction fuel as [|n IH]; intros st H; simpl; [exact H|].
  destruct (closeArray_guard st); [apply IH, stack_ok_pop, H | exact H].
Qed.

Lemma stack_ok_closeArray st : stack_ok st -> stack_ok (closeArray st).
Proof.
  intros H. unfold closeArray.
  set (st1 := closeArray_loop _ st).
  assert (stack_ok st1) by (apply stack_ok_closeArray_loop, H).
  destruct (is_array (heap st1) (top st1)); [apply stack_ok_pop|]; assumption.
Qed.

Lemma value_stack opts st k v st' : value opts st k v = Normal st' -> stack st' = stack st.
Proof.
  unfold value. intros H. bind_inv H.
  repeat case_match; simplify_eq; try reflexivity;
    try (bind_inv H; simplify_eq; reflexivity).
Qed.

Lemma simple_stack opts st k v st' : simple opts st k v = Normal st' -> stack st' = stack st.
Proof.
  unfold simple. intros H.
  destruct (is_array _ _); [|simplify_eq; reflexivity].
  bind_inv H. bind_inv H. simplify_eq. reflexivity.
Qed.

Lemma buffer_stack st k v st' : buffer st k v = Normal st' -> stack st' = stack st.
Proof.
  unfold buffer. intros H.
  repeat case_match; simplify_eq; try reflexivity;
  bind_inv H; bind_inv H; simplify_eq; reflexivity.
Qed.

Lemma stack_ok_object opts st k st' : object opts st k = Normal st' -> stack_ok st -> stack_ok st'.
Proof.
  unfold object. intros H Hok. bind_inv H. destruct a as [target st1].
  bind_inv H. 
  destruct (negb _); [destruct (alloc _ _) as [h1 o]|]; bind_inv H; simplify_eq;
  apply stack_ok_push, stack_ok_with_heap; eapply stack_ok_getTarget; eauto.
Qed.

Lemma stack_ok_array opts st k st' : array opts st k = Normal st' -> stack_ok st -> stack_ok st'.
Proof.
  unfold array. intros H Hok. bind_inv H. destruct a as [target st1].
  destruct (alloc _ _) as [h a].
  repeat bind_inv H. simplify_eq.
  apply stack_ok_push, stack_ok_with_heap; eapply stack_ok_getTarget; eauto.
Qed.

Lemma stack_ok_dispatch opts st i st' : dispatch opts st i = Normal st' -> stack_ok st -> stack_ok st'.
Proof.
  unfold dispatch. destruct i as [t k v]. intros H Hok.
  repeat case_match; simplify_eq.
  - unfold stack_ok. erewrite value_stack; eauto.
  - unfold stack_ok. erewrite simple_stack; eauto.
  - eapply stack_ok_object; eauto.
  - apply stack_ok_pop, Hok.
  - eapply stack_ok_array; eauto.
  - apply stack_ok_closeArray, Hok.
  - unfold stack_ok. erewrite buffer_stack; eauto.
  - exact Hok.
  - exact Hok.
Qed.

Lemma stack_ok_build opts l : forall st st', fst (build opts st l) = Normal st' -> stack_ok st -> stack_ok st'.
Proof.
  induction l as [|i rest IH]; intros st st' H Hok; simpl in *.
  - simplify_eq. exact Hok.
  - destruct (dispatch opts st i) as [s| |] eqn:E; simpl in *; try discriminate.
    destruct (build opts s rest) as [r c] eqn:E2; simpl in *.
    eapply (IH s); [rewrite E2; exact H|]. eapply stack_ok_dispatch; eauto.
Qed.

Lemma closeArray_guard_root h : closeArray_guard {| heap := h; stack := [VRef root] |} = false.
Proof.
  unfold closeArray_guard, top; simpl. apply andb_false_r.
Qed.

Lemma closeArray_loop_guard n : forall st,
  length (stack st) <= n \/ closeArray_guard st = false ->
  closeArray_guard (closeArray_loop (S n) st) = false.
Proof.
  induction n as [|n IH]; intros st H.
  - simpl. destruct (closeArray_guard st) eqn:G; [|exact G].
    destruct H as [H|H]; [|congruence].
    destruct st as [h [|s rest]]; simpl in *; [|lia].
    apply closeArray_guard_root.
  - change (closeArray_loop (S (S n)) st)
      with (if closeArray_guard st then closeArray_loop (S n) (snd (popContext st)) else st).
    destruct (closeArray_guard st) eqn:G; [|exact G].
    destruct H as [H|H]; [|congruence].
    apply IH. destruct st as [h [|s [|s' rest]]]; simpl in *.
    + right. apply closeArray_guard_root.
    + right. apply closeArray_guard_root.
    + left. lia.
Qed.

(** The [while] loop of [closeArray] has ended when the fuel given to
    [closeArray_loop] is used up. *)
Lemma closeArray_loop_done st :
  closeArray_guard (closeArray_loop (S (length (stack st))) st) = false.
Proof. apply closeArray_loop_guard. left. reflexivity. Qed.

Lemma tags_kept_refl h : tags_kept h h.
Proof. intros l t es H. eauto. Qed.

Lemma tags_kept_trans h1 h2 h3 : tags_kept h1 h2 -> tags_kept h2 h3 -> tags_kept h1 h3.
Proof. intros H12 H23 l t es H. destruct (H12 _ _ _ H) as [es' H']. eauto. Qed.

Lemma tags_kept_alloc h c : tags_kept h (fst (alloc h c)).
Proof.
  intros l t es H. simpl. exists es.
  rewrite lookup_app_l; [exact H|]. eapply lookup_lt_Some, H.
Qed.

(** What a property write that returns has done to the store: nothing
    (the inherited setter of [__proto__] with a value that is no object),
    or one property of an object written, or one element of an array
    replaced or appended, or an array cut down. *)
Lemma set_property_Normal h v k x h' :
  set_property h v k x = Normal h' ->
  h' = h
  \/ (exists l m, v = VRef l /\ h !! l = Some (Obj m)
                  /\ h' = <[l := Obj (<[k := x]> m)]> h)
  \/ (exists l t es i, v = VRef l /\ h !! l = Some (Arr t es)
                       /\ Str.index_of k = Some i
                       /\ ((i < length es /\ h' = <[l := Arr t (<[i := x]> es)]> h)
                           \/ (i = length es /\ h' = <[l := Arr t (es ++ [x])]> h)))
  \/ (exists l t es n, v = VRef l /\ h !! l = Some (Arr t es)
                       /\ k = "length" /\ new_length x = Some n
                       /\ h' = <[l := Arr t (take n es)]> h).
Proof.
  unfold set_property, set_prototype. intros H.
  destruct v as [| | | |l0|]; try discriminate;
    try (destruct (String.eqb k "__proto__"); [injection H as <-; auto | discriminate]).
  destruct (h !! l0) as [[m|t0 es0]|] eqn:E; try discriminate.
  - destruct (String.eqb k "__proto__" && negb (bool_decide (is_Some (m !! k))))%bool.
    + destruct x; try discriminate; injection H as <-; auto.
    + injection H as <-. right. left. eauto.
  - destruct (Str.index_of k) as [i|] eqn:Ei.
    + destruct (bool_decide (i < length es0)) eqn:Elt.
      * apply bool_decide_eq_true in Elt. injection H as <-.
        right. right. left. exists l0, t0, es0, i.
        split; [reflexivity|]. split; [exact E|]. split; [first [reflexivity | exact Ei]|].
        left. split; [exact Elt | reflexivity].
      * destruct (bool_decide (i = length es0)) eqn:Eeq; [|discriminate].
        apply bool_decide_eq_true in Eeq. injection H as <-.
        right. right. left. exists l0, t0, es0, i.
        split; [reflexivity|]. split; [exact E|]. split; [first [reflexivity | exact Ei]|].
        right. split; [exact Eeq | reflexivity].
    + destruct (String.eqb k "__proto__");
        [destruct x; try discriminate; injection H as <-; auto|].
      destruct (String.eqb_spec k "length") as [->|_]; [|discriminate].
      destruct (new_length x) as [n|] eqn:En; [|discriminate].
      destruct (bool_decide (n <= length es0)); [|discriminate].
      injection H as <-. right. right. right. exists l0, t0, es0, n. auto.
Qed.

Lemma tags_kept_insert h l c c' :
  h !! l = Some c ->
  (forall t es, c = Arr (Some t) es -> exists es', c' = Arr (Some t) es') ->
  tags_kept h (<[l := c']> h).
Proof.
  intros Hl Hc l0 t es H0. destruct (decide (l = l0)) as [->|Hne].
  - rewrite Hl in H0. injection H0 as ->. destruct (Hc t es eq_refl) as [es' ->].
    exists es'. apply list_lookup_insert_eq. eapply lookup_lt_Some, Hl.
  - exists es. rewrite list_lookup_insert_ne by exact Hne. exact H0.
Qed.

Lemma tags_kept_set_property h v k x h' :
  set_property h v k x = Normal h' -> tags_kept h h'.
Proof.
  intros H. apply set_property_Normal in H
    as [-> | [(l & m & -> & Hl & ->)
       | [(l & t & es & i & -> & Hl & _ & [[_ ->] | [_ ->]])
         | (l & t & es & n & -> & Hl & _ & _ & ->)]]].
  - intros l t es Hl. eauto.
  - eapply tags_kept_insert; [exact Hl | discriminate].
  - eapply tags_kept_insert; [exact Hl|]. intros t0 es0 [= -> _]. eauto.
  - eapply tags_kept_insert; [exact Hl|]. intros t0 es0 [= -> _]. eauto.
  - eapply tags_kept_insert; [exact Hl|]. intros t0 es0 [= -> _]. eauto.
Qed.

Lemma tags_kept_push h l x h' : push h l x = Normal h' -> tags_kept h h'.
Proof.
  unfold push. intros H l0 t es Hl.
  destruct (h !! l) as [[m|t0 es0]|] eqn:E; try discriminate.
  injection H as <-.
  destruct (decide (l = l0)) as [->|Hne].
  - rewrite E in Hl. injection Hl as -> ->.
    exists (es ++ [x]). apply list_lookup_insert_eq. eapply lookup_lt_Some, E.
  - exists es. rewrite list_lookup_insert_ne; assumption.
Qed.

Lemma tags_kept_assignType h l t h' : assignType h l t = Normal h' -> tags_kept h h'.
Proof.
  unfold assignType. intros H l0 t0 es Hl.
  destruct (h !! l) as [[m|[t1|] es1]|] eqn:E; try discriminate.
  - destruct (decide (t1 = t)); [|discriminate]. injection H as <-. eauto.
  - injection H as <-. exists es. rewrite list_lookup_insert_ne; [exact Hl|].
    intros ->. rewrite E in Hl. discriminate.
Qed.

Lemma tags_kept_push_to h v x h' : push_to h v x = Normal h' -> tags_kept h h'.
Proof. destruct v; simpl; try discriminate. apply tags_kept_push. Qed.

Lemma tags_kept_assignType_to h v t h' : assignType_to h v t = Normal h' -> tags_kept h h'.
Proof. destruct v; simpl; try discriminate. apply tags_kept_assignType. Qed.

Lemma tags_kept_setPath_loop keypath : forall h branch h' b,
  setPath_loop h branch keypath = Normal (h', b) -> tags_kept h h'.
Proof.
  induction keypath as [|k rest IH]; intros h branch h' b H; simpl in H.
  - simplify_eq. apply tags_kept_refl.
  - bind_inv H. bind_inv H.
    destruct (negb a || negb (String.eqb (typeof a0) "object"))%bool.
    + bind_inv H. bind_inv H.
      eapply tags_kept_trans; [apply (tags_kept_alloc h (Obj ∅))|].
      eapply tags_kept_trans; [eapply tags_kept_set_property; eassumption|].
      eapply IH; eassumption.
    + eapply IH; eassumption.
Qed.

Lemma tags_kept_setPath opts h object key value h' b :
  setPath opts h object key value = Normal (h', b) -> tags_kept h h'.
Proof.
  unfold setPath. intros H. bind_inv H.
  destruct (pop_terminal a) as [terminal keypath].
  bind_inv H. bind_inv H. destruct a1 as [h1 branch]. bind_inv H. simplify_eq.
  eapply tags_kept_trans; [eapply tags_kept_setPath_loop; eassumption|].
  eapply tags_kept_set_property; eassumption.
Qed.

Lemma tags_kept_addToArray_default opts h target key value h' :
  addToArray_default opts h target key value = Normal h' -> tags_kept h h'.
Proof.
  unfold addToArray_default. intros H.
  bind_inv H. bind_inv H. bind_inv H. destruct a1 as [h1 last].
  bind_inv H. destruct a1 as [h2 b]. simplify_eq.
  eapply tags_kept_trans.
  { destruct (bool_decide (type_tag h target = None));
      [eapply tags_kept_assignType_to; eassumption|].
    simplify_eq. apply tags_kept_refl. }
  eapply tags_kept_trans; [|eapply tags_kept_setPath; eassumption].
  destruct a0.
  - bind_inv Ha1. simplify_eq.
    eapply tags_kept_trans; [apply (tags_kept_alloc a (Obj ∅))|].
    eapply tags_kept_push_to; eassumption.
  - simplify_eq. apply tags_kept_refl.
Qed.

Lemma tags_kept_addToArray opts h target key value h' :
  addToArray opts h target key value = Normal h' -> tags_kept h h'.
Proof.
  unfold addToArray. intros H.
  destruct (type_tag h target) as [[| |]|] eqn:E.
  - eapply tags_kept_addToArray_default; eassumption.
  - simplify_eq. apply tags_kept_refl.
  - bind_inv H. unfold alloc in H.
    eapply tags_kept_trans; [apply (tags_kept_alloc h (record (VStr a) (trim_if_string value)))|].
    eapply tags_kept_push_to; exact H.
  - eapply tags_kept_addToArray_default; eassumption.
Qed.

Lemma tags_kept_append opts h target key value h' :
  append opts h target key value = Normal h' -> tags_kept h h'.
Proof.
  unfold append. intros H. destruct (is_array h target).
  - eapply tags_kept_addToArray; eassumption.
  - bind_inv H. destruct a as [h1 b]. simplify_eq. eapply tags_kept_setPath; eassumption.
Qed.

Lemma tags_kept_push_lines target lines : forall h h',
  push_lines h target lines = Normal h' -> tags_kept h h'.
Proof.
  induction lines as [|v rest IH]; intros h h' H; simpl in H.
  - simplify_eq. apply tags_kept_refl.
  - bind_inv H.
    eapply tags_kept_trans; [apply (tags_kept_alloc h (record (VStr "text") (VStr (Str.trim v))))|].
    eapply tags_kept_trans; [eapply tags_kept_push_to; eassumption|].
    eapply IH; eassumption.
Qed.

Lemma tags_kept_value opts st k v st' :
  value opts st k v = Normal st' -> tags_kept (heap st) (heap st').
Proof.
  unfold value. intros H. bind_inv H.
  destruct (is_array (heap st) (top st)).
  - destruct (type_tag (heap st) (top st)) as [[| |]|].
    + bind_inv H. simplify_eq. eapply tags_kept_append; eassumption.
    + simplify_eq. apply tags_kept_refl.
    + bind_inv H. simplify_eq. simpl.
      eapply tags_kept_trans; [apply (tags_kept_alloc (heap st) (record (of_opt k) (VStr a)))|].
      eapply tags_kept_push_to; eassumption.
    + bind_inv H. simplify_eq. eapply tags_kept_append; eassumption.
  - bind_inv H. simplify_eq. eapply tags_kept_append; eassumption.
Qed.

Lemma tags_kept_simple opts st k v st' :
  simple opts st k v = Normal st' -> tags_kept (heap st) (heap st').
Proof.
  unfold simple. intros H.
  destruct (is_array _ _); [|simplify_eq; apply tags_kept_refl].
  bind_inv H. bind_inv H. simplify_eq. simpl.
  apply (tags_kept_trans _ a).
  - assert (forall h1, (h1 ← assignType_to (heap st) (top st) Simple;
                         v ← trim_payload v; push_to h1 (top st) (VStr v)) = Normal h1 ->
                       tags_kept (heap st) h1) as Hpush.
    { intros h1 Hh. bind_inv Hh. bind_inv Hh.
      eapply tags_kept_trans; [eapply tags_kept_assignType_to; eassumption|].
      eapply tags_kept_push_to; eassumption. }
    destruct (type_tag (heap st) (top st)) as [[| |]|]; auto;
      injection Ha as <-; apply tags_kept_refl.
  - destruct (bool_decide _); [|injection Ha0 as <-; apply tags_kept_refl].
    bind_inv Ha0. unfold alloc in Ha0.
    eapply tags_kept_trans; [apply (tags_kept_alloc a (record (VStr "text") (VStr a1)))|].
    eapply tags_kept_push_to; exact Ha0.
Qed.

Lemma getTarget_heap st key target st' :
  getTarget st key = Normal (target, st') -> heap st' = heap st.
Proof.
  unfold getTarget. destruct key as [k|]; [|discriminate].
  destruct (Str.first_is "." k); intros [= <- <-]; reflexivity.
Qed.

Lemma tags_kept_object opts st k st' :
  object opts st k = Normal st' -> tags_kept (heap st) (heap st').
Proof.
  unfold object. intros H. bind_inv H. destruct a as [target st1].
  apply getTarget_heap in Ha. rewrite <- Ha.
  bind_inv H.
  destruct (negb _).
  - bind_inv H. simplify_eq. simpl.
    eapply tags_kept_trans; [apply (tags_kept_alloc (heap st1) (Obj ∅))|].
    eapply tags_kept_append; eassumption.
  - bind_inv H. simplify_eq. simpl. eapply tags_kept_append; eassumption.
Qed.

Lemma tags_kept_array opts st k st' :
  array opts st k = Normal st' -> tags_kept (heap st) (heap st').
Proof.
  unfold array. intros H. bind_inv H. destruct a as [target st1].
  apply getTarget_heap in Ha. rewrite <- Ha.
  bind_inv H. bind_inv H. bind_inv H. simplify_eq. simpl.
  eapply tags_kept_trans; [apply (tags_kept_alloc (heap st1) (Arr None []))|].
  eapply tags_kept_trans; [|eapply tags_kept_append; eassumption].
  destruct (last a) as [l|]; [|discriminate].
  destruct (Str.first_is "+" l); [eapply tags_kept_assignType; eassumption|].
  simplify_eq. apply tags_kept_refl.
Qed.

Lemma popContext_heap st : heap (snd (popContext st)) = heap st.
Proof. reflexivity. Qed.

Lemma closeArray_loop_heap fuel : forall st, heap (closeArray_loop fuel st) = heap st.
Proof.
  induction fuel as [|n IH]; intros st; simpl; [reflexivity|].
  destruct (closeArray_guard st); [rewrite IH|]; reflexivity.
Qed.

Lemma closeArray_heap st : heap (closeArray st) = heap st.
Proof.
  unfold closeArray. destruct (is_array _ _);
    [rewrite popContext_heap|]; apply closeArray_loop_heap.
Qed.

Lemma tags_kept_buffer st k v st' :
  buffer st k v = Normal st' -> tags_kept (heap st) (heap st').
Proof.
  unfold buffer. intros H.
  destruct (top st); try discriminate;
    (destruct (bool_decide _); [|simplify_eq; apply tags_kept_refl]);
    bind_inv H; bind_inv H; simplify_eq; simpl; eapply tags_kept_push_lines; eassumption.
Qed.

Lemma tags_kept_dispatch opts st i st' :
  dispatch opts st i = Normal st' -> tags_kept (heap st) (heap st').
Proof.
  unfold dispatch. destruct i as [t k v]. intros H.
  repeat case_match; simplify_eq.
  - eapply tags_kept_value; eassumption.
  - eapply tags_kept_simple; eassumption.
  - eapply tags_kept_object; eassumption.
  - apply tags_kept_refl.
  - eapply tags_kept_array; eassumption.
  - rewrite closeArray_heap. apply tags_kept_refl.
  - eapply tags_kept_buffer; eassumption.
  - apply tags_kept_refl.
  - apply tags_kept_refl.
Qed.

Lemma tags_kept_build opts l : forall st st',
  fst (build opts st l) = Normal st' -> tags_kept (heap st) (heap st').
Proof.
  induction l as [|i rest IH]; intros st st' H; simpl in *.
  - simplify_eq. apply tags_kept_refl.
  - destruct (dispatch opts st i) as [s| |] eqn:E; simpl in *; try discriminate.
    destruct (build opts s rest) as [r c] eqn:E2; simpl in *.
    eapply tags_kept_trans; [eapply tags_kept_dispatch; eassumption|].
    apply IH. rewrite E2. exact H.
Qed.

Lemma type_tag_kept h h' v t :
  tags_kept h h' -> type_tag h v = Some t -> type_tag h' v = Some t.
Proof.
  intros Hk. destruct v as [| | | |l|]; simpl; try discriminate.
  destruct (h !! l) as [[m|[t0|] es]|] eqn:E; try discriminate.
  intros [= ->]. destruct (Hk l t es E) as [es' ->]. reflexivity.
Qed.

(** *** The context stack and the array subtypes during an assembly *)

Lemma stack_ok_single st : stack_ok st -> length (stack st) = 1 -> stack st = [VRef root].
Proof.
  unfold stack_ok. destruct (stack st) as [|s [|s' rest]]; simpl; try discriminate.
  intros [= ->] _. reflexivity.
Qed.

Lemma stack_ok_init : stack_ok init.
Proof. reflexivity. Qed.

(** C2: at every point of the building loop, that is after any number of
    instructions of the normalized stream have been handled, the context
    stack is not empty and its bottom element is the document root; and
    when it holds one scope only, [popContext] returns that scope and
    leaves the stack as [root] alone. *)
Theorem C2_context_stack_rooted (opts : options)
    (instructions done rest : list instruction) (st : state) :
  normalized instructions = done ++ rest ->
  fst (build opts init done) = Normal st ->
  stack st <> []
  /\ last (stack st) = Some (VRef root)
  /\ (length (stack st) = 1 ->
      popContext st = (top st, {| heap := heap st; stack := [VRef root] |})).
Proof.
  intros _ Hrun.
  assert (stack_ok st) as Hok by (eapply stack_ok_build; [exact Hrun | exact stack_ok_init]).
  split; [|split].
  - intros Hnil. unfold stack_ok in Hok. rewrite Hnil in Hok. discriminate.
  - exact Hok.
  - intros Hone. pose proof (stack_ok_single st Hok Hone) as Hst.
    destruct st as [h stk]; simpl in *; subst stk. reflexivity.
Qed.

Lemma C2_context_stack_rooted_witness :
  exists st,
    fst (build (plain false) init (take 3 (normalized article_stream))) = Normal st
    /\ stack st <> []
    /\ last (stack st) = Some (VRef root)
    /\ (length (stack st) = 1 ->
        popContext st = (top st, {| heap := heap st; stack := [VRef root] |})).
Proof.
  eexists. split; [vm_compute; reflexivity|].
  apply (C2_context_stack_rooted (plain false) article_stream
           (take 3 (normalized article_stream)) (drop 3 (normalized article_stream))).
  - vm_compute; reflexivity.
  - vm_compute; reflexivity.
Defined.

(** C3 (the code departs from the specification): a value whose key path
    leads into an array is stored by [setPath] as an element of that array,
    and no subtype is assigned with it: after array("a"), closeArray(),
    value("a.0", "x") the array holds "x" and has no subtype.  The array
    gets its subtype only with its second element, when it is opened again
    and a bare value is added. *)
Theorem C3_key_path_write_assigns_no_subtype :
  fst (assemble (plain false) index_stream)
  = Normal [ Obj {[ "a" := VRef 1 ]}; Arr None [VStr "x"] ]
  /\ fst (assemble (plain false) reopened_stream)
     = Normal [ Obj {[ "a" := VRef 1 ]}; Arr (Some Simple) [VStr "x"; VStr "y"] ].
Proof. split; vm_compute; reflexivity. Qed.

(** X24: once an array has a subtype, whatever instructions the builder
    handles afterwards (value, simple, buffer, object, array, the closing
    instructions, with any hooks), it is still an array of that subtype;
    and giving it another subtype throws. *)
Theorem subtype_never_changes (opts : options) (later : list instruction)
    (st st' : state) (l : loc) (t t' : subtype) (es : list jsval) :
  fst (build opts st later) = Normal st' ->
  heap st !! l = Some (Arr (Some t) es) ->
  (exists es', heap st' !! l = Some (Arr (Some t) es'))
  /\ (t' <> t -> assignType (heap st) l t' = Throw RedefineProperty).
Proof.
  intros Hlater Hl. split.
  - exact (tags_kept_build opts later st st' Hlater l t es Hl).
  - intros Hne. unfold assignType. rewrite Hl.
    rewrite decide_False by (intros ->; contradiction). reflexivity.
Qed.

Lemma subtype_never_changes_witness :
  exists st st' es',
    fst (build (plain false) init (take 2 (normalized tags_stream))) = Normal st
    /\ fst (build (plain false) st (drop 2 (normalized tags_stream))) = Normal st'
    /\ heap st !! 1 = Some (Arr (Some Simple) [VStr "red"])
    /\ heap st' !! 1 = Some (Arr (Some Simple) es').
Proof.
  assert (exists st, fst (build (plain false) init (take 2 (normalized tags_stream)))
                     = Normal st
                     /\ heap st !! 1 = Some (Arr (Some Simple) [VStr "red"]))
    as (st & Hst & Hl).
  { eexists. split; vm_compute; reflexivity. }
  assert (exists st', fst (build (plain false) st (drop 2 (normalized tags_stream)))
                      = Normal st') as (st' & Hst').
  { vm_compute in Hst. injection Hst as <-. eexists. vm_compute. reflexivity. }
  destruct (subtype_never_changes (plain false) (drop 2 (normalized tags_stream))
              st st' 1 Simple Standard [VStr "red"] Hst' Hl) as [[es' Hes'] _].
  exists st, st', es'. auto.
Defined.

(** *** Unrecognized instruction kinds *)

Lemma recognized_false t :
  recognized t = false ->
  String.eqb t "simple" = false /\ String.eqb t "buffer" = false
  /\ String.eqb t "value" = false /\ String.eqb t "object" = false
  /\ String.eqb t "array" = false /\ String.eqb t "closeObject" = false
  /\ String.eqb t "closeArray" = false /\ String.eqb t "flush" = false
  /\ String.eqb t "skipped" = false.
Proof.
  unfold recognized. intros H. apply bool_decide_eq_false in H.
  repeat split; apply String.eqb_neq; intros ->; apply H; set_solver.
Qed.

(** C4, as the specification states it, does not hold: a stream with an instruction of kind
    "bogus" ends in the crash of calling an undefined method. *)
Lemma C4_undefined_call_counterexample :
  Exists (fun i => recognized (Instruction.type i) = false) bogus_stream
  /\ fst (assemble (plain false) bogus_stream) = Throw NotAFunction
  /\ ~ fails_as_specified (fst (assemble (plain false) bogus_stream)).
Proof.
  split; [|split].
  - apply Exists_cons_tl, Exists_cons_hd. reflexivity.
  - vm_compute. reflexivity.
  - intros (e & He & Hne). vm_compute in He. congruence.
Qed.

(** C4, amended: an instruction whose kind is neither one of the nine
    recognized kinds nor the name of another method of the assembler goes
    through the pre-processing pass unchanged (it only clears the anchor),
    and when the builder comes to it the call [this[type](key, value)]
    throws the TypeError of calling something that is not a function; the
    building loop stops there. *)
Theorem C4_unrecognized_kind_is_an_undefined_call (opts : options) (st : state)
    (pst : Pre.pstate) (i : instruction) (rest : list instruction) :
  recognized (Instruction.type i) = false ->
  other_member (Instruction.type i) = false ->
  dispatch opts st i = Throw NotAFunction
  /\ fst (build opts st (i :: rest)) = Throw NotAFunction
  /\ fst (Pre.step pst i)
     = {| Pre.processed := Pre.processed pst ++ [i]; Pre.lastValue := None;
          Pre.buffer := Pre.buffer pst; Pre.absorbing := false |}.
Proof.
  intros Hrec Hother.
  destruct (recognized_false _ Hrec) as (H1 & H2 & H3 & H4 & H5 & H6 & H7 & H8 & H9).
  assert (dispatch opts st i = Throw NotAFunction) as Hd.
  { destruct i as [t k v]; simpl in *. unfold dispatch.
    rewrite H1, H2, H3, H4, H5, H6, H7, H8, H9, Hother. reflexivity. }
  split; [exact Hd|]. split.
  - cbn [build]. rewrite Hd. reflexivity.
  - destruct i as [t k v]; simpl in *. unfold Pre.step, Pre.is_structural.
    rewrite H1, H2, H3, H4, H5, H6, H7, H8, andb_false_r. reflexivity.
Qed.

Lemma C4_unrecognized_kind_witness :
  dispatch (plain false) init (instr "bogus" "k" "v") = Throw NotAFunction
  /\ fst (build (plain false) init [instr "bogus" "k" "v"]) = Throw NotAFunction
  /\ fst (Pre.step Pre.init (instr "bogus" "k" "v"))
     = {| Pre.processed := [instr "bogus" "k" "v"]; Pre.lastValue := None;
          Pre.buffer := []; Pre.absorbing := false |}.
Proof.
  apply (C4_unrecognized_kind_is_an_undefined_call (plain false) init Pre.init
           (instr "bogus" "k" "v") []); vm_compute; reflexivity.
Defined.

(** *** The pre-processing pass *)

Lemma loop_app l1 : forall st l2,
  fst (Pre.loop st (l1 ++ l2)) = fst (Pre.loop (fst (Pre.loop st l1)) l2).
Proof.
  induction l1 as [|i rest IH]; intros st l2; simpl; [reflexivity|].
  destruct (Pre.step st i) as [st1 msgs].
  specialize (IH st1 l2).
  destruct (Pre.loop st1 (rest ++ l2)), (Pre.loop st1 rest); simpl in *.
  exact IH.
Qed.

Lemma loop_cons st i l :
  fst (Pre.loop st (i :: l)) = fst (Pre.loop (fst (Pre.step st i)) l).
Proof.
  simpl. destruct (Pre.step st i) as [st1 msgs]. simpl. destruct (Pre.loop st1 l). reflexivity.
Qed.

Lemma normalized_eq s : normalized s = Pre.finish (pre_run s).
Proof.
  unfold normalized, Pre.preprocess, pre_run.
  destruct (Pre.loop Pre.init s). reflexivity.
Qed.

Lemma is_structural_cases t :
  Pre.is_structural t = true ->
  t = "object" \/ t = "array" \/ t = "closeObject" \/ t = "closeArray".
Proof.
  unfold Pre.is_structural. intros H.
  repeat (apply orb_true_iff in H; destruct H as [H|H]);
    apply String.eqb_eq in H; auto.
Qed.

Lemma step_structural st i :
  Pre.is_structural (Instruction.type i) = true ->
  fst (Pre.step st i)
  = {| Pre.processed := Pre.push_if_text (Pre.processed st) (Pre.mergeBuffer (Pre.buffer st)) ++ [i];
       Pre.lastValue := None; Pre.buffer := []; Pre.absorbing := false |}.
Proof.
  destruct i as [t k v]. simpl. intros H.
  destruct (is_structural_cases t H) as [-> | [-> | [-> | ->]]];
    unfold Pre.step; simpl; rewrite andb_false_r; reflexivity.
Qed.

(** C6, as the specification states it, does not hold: with the anchor [value k v] and the
    pending text "x", an [object] instruction (and the end of the stream)
    emits a standalone buffer instruction where the flush rule would have
    appended the text to the anchor's payload. *)
Lemma C6_flush_rule_counterexample :
  let st := pre_run [instr "value" "k" "v"; payload "buffer" "x"] in
  Pre.lastValue st <> None
  /\ Str.truthy (Str.trim (Pre.mergeBuffer (Pre.buffer st))) = true
  /\ fst (Pre.step st (keyed "object" "o")) <> spec_structural_step st (keyed "object" "o")
  /\ Pre.finish st <> spec_finish st.
Proof.
  vm_compute. repeat split; discriminate.
Qed.

(** C6, amended: on an object, array, closeObject or closeArray
    instruction, and at the end of the stream, the pending text is merged
    and, when it is not blank after trimming, emitted as a standalone buffer
    instruction; blank text is dropped.  It is never appended to the
    anchor's payload: the stream normalized so far is kept as it is, so a
    closing structural instruction [i] gives the normalized stream of what
    precedes it, followed by [i]. *)
Theorem C6_structural_flush_is_standalone (s : list instruction) (i : instruction) :
  Pre.is_structural (Instruction.type i) = true ->
  normalized (s ++ [i]) = normalized s ++ [i]
  /\ normalized s
     = (let merged := Pre.mergeBuffer (Pre.buffer (pre_run s)) in
        if Str.truthy (Str.trim merged)
        then Pre.processed (pre_run s) ++ [Pre.buffer_instruction merged]
        else Pre.processed (pre_run s)).
Proof.
  intros Hi. split.
  - rewrite !normalized_eq. unfold pre_run.
    rewrite loop_app, loop_cons. simpl Pre.loop. simpl fst.
    rewrite (step_structural _ i Hi). reflexivity.
  - rewrite normalized_eq. reflexivity.
Qed.

Lemma C6_structural_flush_witness :
  normalized ([instr "value" "k" "v"; payload "buffer" "x"] ++ [keyed "object" "o"])
  = normalized [instr "value" "k" "v"; payload "buffer" "x"] ++ [keyed "object" "o"].
Proof.
  apply (C6_structural_flush_is_standalone
           [instr "value" "k" "v"; payload "buffer" "x"] (keyed "object" "o")).
  reflexivity.
Defined.

(** *** Skipped instructions *)

Lemma filter_skipped_snoc_false (l : list instruction) (x : instruction) :
  is_skipped x = false -> filter is_skipped (l ++ [x]) = filter is_skipped l.
Proof.
  intros H. rewrite filter_app, filter_cons_False, filter_nil, app_nil_r;
    [reflexivity | rewrite H; exact (fun f => f)].
Qed.

Lemma filter_skipped_alter f n (l : list instruction) a :
  l !! n = Some a -> is_skipped a = false -> is_skipped (f a) = false ->
  filter is_skipped (alter f n l) = filter is_skipped l.
Proof.
  revert n. induction l as [|x l IH]; intros [|n] Hl Ha Hfa; try discriminate.
  - injection Hl as ->. change (alter f 0 (a :: l)) with (f a :: l).
    rewrite !filter_cons_False; [reflexivity | rewrite Ha | rewrite Hfa];
      exact (fun f => f).
  - change (alter f (S n) (x :: l)) with (x :: alter f n l).
    rewrite !filter_cons. rewrite (IH n Hl Ha Hfa). reflexivity.
Qed.

Lemma anchor_ok_snoc st x b s :
  anchor_ok st ->
  anchor_ok {| Pre.processed := Pre.processed st ++ [x]; Pre.lastValue := Pre.lastValue st;
               Pre.buffer := b; Pre.absorbing := s |}.
Proof.
  intros H n Hn. simpl in *. destruct (H n Hn) as (a & Ha & Hs).
  exists a. split; [|exact Hs].
  rewrite lookup_app_l; [exact Ha | eapply lookup_lt_Some, Ha].
Qed.

Lemma anchor_ok_new l x b s :
  is_skipped x = false ->
  anchor_ok {| Pre.processed := l ++ [x]; Pre.lastValue := Some (length l);
               Pre.buffer := b; Pre.absorbing := s |}.
Proof.
  intros Hx n [= <-]. exists x. split; [|exact Hx].
  simpl. apply list_lookup_middle. reflexivity.
Qed.

Lemma anchor_ok_none l b s :
  anchor_ok {| Pre.processed := l; Pre.lastValue := None; Pre.buffer := b;
               Pre.absorbing := s |}.
Proof. intros n [=]. Qed.

Lemma anchor_ok_same st b s :
  anchor_ok st ->
  anchor_ok {| Pre.processed := Pre.processed st; Pre.lastValue := Pre.lastValue st;
               Pre.buffer := b; Pre.absorbing := s |}.
Proof. exact (fun H => H). Qed.

Lemma push_if_text_skipped l m :
  filter is_skipped (Pre.push_if_text l m) = filter is_skipped l.
Proof.
  unfold Pre.push_if_text. destruct (Str.truthy _); [|reflexivity].
  apply filter_skipped_snoc_false. reflexivity.
Qed.

Lemma step_keeps_skipped st i :
  anchor_ok st ->
  anchor_ok (fst (Pre.step st i))
  /\ filter is_skipped (Pre.processed (fst (Pre.step st i)))
     = filter is_skipped (Pre.processed st) ++ filter is_skipped [i].
Proof.
  intros Hok. destruct i as [t k v]. unfold Pre.step.
  destruct (Pre.absorbing st && String.eqb t "buffer")%bool eqn:E0.
  { apply andb_true_iff in E0 as [_ ->%String.eqb_eq].
    split; [apply anchor_ok_same, Hok | simpl; rewrite app_nil_r; reflexivity]. }
  destruct (String.eqb t "simple") eqn:E1.
  { apply String.eqb_eq in E1 as ->. simpl.
    destruct (bool_decide (Pre.lastValue st = None) || Pre.lastValue_is_simple st)%bool.
    - split; [apply anchor_ok_new; reflexivity|]. simpl.
      rewrite filter_skipped_snoc_false, app_nil_r; reflexivity.
    - split; [apply anchor_ok_same, Hok | simpl; rewrite app_nil_r; reflexivity]. }
  simpl. destruct (String.eqb t "buffer") eqn:E2.
  { apply String.eqb_eq in E2 as ->.
    split; [apply anchor_ok_same, Hok | simpl; rewrite app_nil_r; reflexivity]. }
  destruct (String.eqb t "value") eqn:E3.
  { apply String.eqb_eq in E3 as ->. simpl.
    destruct (Pre.lastValue_is_simple st).
    - split; [apply anchor_ok_same, Hok | simpl; rewrite app_nil_r; reflexivity].
    - split; [apply anchor_ok_new; reflexivity|]. simpl.
      rewrite filter_skipped_snoc_false, push_if_text_skipped, app_nil_r; reflexivity. }
  simpl. destruct (String.eqb t "flush") eqn:E4.
  { apply String.eqb_eq in E4 as ->. simpl. rewrite app_nil_r.
    destruct (Pre.buffer st) as [|b bs].
    { split; [apply anchor_ok_same, Hok | reflexivity]. }
    destruct (Pre.lastValue st) as [n|] eqn:En.
    - destruct (Hok n En) as (a & Ha & Hs).
      destruct (Str.truthy _).
      + split.
        * intros n' Hn'. simpl in *. injection Hn' as <-.
          exists (Pre.append_to_value (Pre.mergeBuffer (b :: bs)) a). split; [|exact Hs].
          rewrite list_lookup_alter, Ha, decide_True by reflexivity. reflexivity.
        * simpl. eapply filter_skipped_alter; [exact Ha | exact Hs | exact Hs].
      + split.
        * intros n' Hn'. simpl in *. injection Hn' as <-.
          exists a. split; [|exact Hs].
          rewrite lookup_app_l; [exact Ha | eapply lookup_lt_Some, Ha].
        * simpl. apply filter_skipped_snoc_false. reflexivity.
    - split; [apply anchor_ok_none|]. simpl. apply filter_skipped_snoc_false. reflexivity. }
  destruct (Pre.is_structural t) eqn:E5.
  { split; [apply anchor_ok_none|]. simpl.
    rewrite filter_app, push_if_text_skipped. reflexivity. }
  split; [apply anchor_ok_none|]. simpl. apply filter_app.
Qed.

Lemma loop_keeps_skipped s : forall st,
  anchor_ok st ->
  anchor_ok (fst (Pre.loop st s))
  /\ filter is_skipped (Pre.processed (fst (Pre.loop st s)))
     = filter is_skipped (Pre.processed st) ++ filter is_skipped s.
Proof.
  induction s as [|i rest IH]; intros st Hok.
  - simpl. rewrite app_nil_r. auto.
  - rewrite loop_cons.
    destruct (step_keeps_skipped st i Hok) as [Hok1 H1].
    destruct (IH _ Hok1) as [Hok2 H2].
    split; [exact Hok2|].
    rewrite H2, H1, <- app_assoc, <- filter_app. reflexivity.
Qed.

(** C5, as the specification states it, does not hold: the skipped instruction of
    [skipped_stream] is in the normalized stream, and it has cleared the
    anchor, so the text after it is not added to the payload of the value
    before it. *)
Lemma C5_skipped_counterexample :
  normalized skipped_stream
  <> normalized (filter (fun i => negb (is_skipped i)) skipped_stream)
  /\ normalized skipped_stream
     = [ instr "value" "k" "v"; bare "skipped"; Pre.buffer_instruction "x" ]
  /\ normalized (filter (fun i => negb (is_skipped i)) skipped_stream)
     = [ instr "value" "k" "vx" ].
Proof.
  split; [|split]; vm_compute; [discriminate | reflexivity | reflexivity].
Qed.

(** C5, amended: the pre-processing pass hands every skipped instruction
    on to the normalized stream, unchanged and in order; a skipped
    instruction clears the pending anchor and leaves the pending text as it
    is; the builder's handler for it does nothing. *)
Theorem C5_skipped_is_passed_through :
  (forall s, filter is_skipped (normalized s) = filter is_skipped s)
  /\ (forall st k v,
        fst (Pre.step st (Instruction.mk "skipped" k v))
        = {| Pre.processed := Pre.processed st ++ [Instruction.mk "skipped" k v];
             Pre.lastValue := None; Pre.buffer := Pre.buffer st;
             Pre.absorbing := false |})
  /\ (forall opts st k v, dispatch opts st (Instruction.mk "skipped" k v) = Normal st).
Proof.
  split; [|split].
  - intros s. rewrite normalized_eq. unfold Pre.finish, pre_run.
    rewrite push_if_text_skipped.
    destruct (loop_keeps_skipped s Pre.init) as [_ H]; [apply anchor_ok_none|].
    exact H.
  - intros st k v. unfold Pre.step. simpl. rewrite andb_false_r. reflexivity.
  - reflexivity.
Qed.

(** *** Reading a key path, and the tag of a freeform record *)

(** C8 (the code departs from the specification): with "a" holding the string "x",
    [getPath] for the key path "a.b.c" reaches the string before the
    non-terminal segment "b" and throws, alone and inside an assembly; for
    "a.length" it returns a number instead of the absent value. *)
Theorem C8_getPath_throws_through_a_scalar :
  getPath (plain false) [Obj {[ "a" := VStr "x" ]}] (VRef root) (Some "a.b.c")
  = Throw InOnPrimitive
  /\ fst (assemble (plain false) [instr "value" "a" "x"; keyed "object" "a.b.c"])
     = Throw InOnPrimitive
  /\ getPath (plain false) [Obj {[ "a" := VStr "x" ]}] (VRef root) (Some "a.length")
     = Normal (VNum 1).
Proof. split; [|split]; vm_compute; reflexivity. Qed.

(** C9 (the code departs from the specification): inside the freeform array "list",
    value(".a", "x") stores a record whose tag is ".a", the key as it came,
    while object(".a") goes through [addToArray] and stores the tag "a". *)
Theorem C9_value_keeps_the_dot_in_the_tag :
  fst (assemble (plain false) [keyed "array" "+list"; instr "value" ".a" "x"])
  = Normal [ Obj {[ "list" := VRef 1 ]}; Arr (Some Freeform) [VRef 2];
             record (VStr ".a") (VStr "x") ]
  /\ fst (assemble (plain false) [keyed "array" "+list"; keyed "object" ".a"])
     = Normal [ Obj {[ "list" := VRef 1 ]}; Arr (Some Freeform) [VRef 3];
                Obj ∅; record (VStr "a") (VRef 2) ].
Proof. split; vm_compute; reflexivity. Qed.

(** *** A second pre-processing pass *)

Lemma append_empty_r s : s +:+ "" = s.
Proof.
  induction s as [|c s IH]; [reflexivity|].
  change (String c (s +:+ "") = String c s). rewrite IH. reflexivity.
Qed.

Lemma has_backslash_app a b :
  Str.has_backslash (a +:+ b) = (Str.has_backslash a || Str.has_backslash b)%bool.
Proof.
  induction a as [|c a IH]; [reflexivity|].
  change (Str.has_backslash (String c a +:+ b))
    with (Ascii.eqb c Str.backslash || Str.has_backslash (a +:+ b))%bool.
  rewrite IH, orb_assoc. reflexivity.
Qed.

Lemma strip_backslash_from_clean s : forall b,
  Str.has_backslash s = false -> Str.strip_backslash_from b s = s.
Proof.
  induction s as [|c s IH]; intros b H; simpl in *; [reflexivity|].
  apply orb_false_iff in H as [Hc Hs].
  rewrite Hc, andb_false_r, (IH _ Hs). reflexivity.
Qed.

Lemma join_clean (l : list (option string)) :
  Forall (fun b => Str.has_backslash (default "" b) = false) l ->
  Str.has_backslash (Str.join (map (default "") l)) = false.
Proof.
  induction 1 as [|b l Hb Hl IH]; [reflexivity|].
  change (Str.join (map (default "") (b :: l)))
    with (default "" b +:+ Str.join (map (default "") l)).
  rewrite has_backslash_app, Hb, IH. reflexivity.
Qed.

Lemma mergeBuffer_clean (l : list (option string)) :
  Forall (fun b => Str.has_backslash (default "" b) = false) l ->
  Str.has_backslash (Pre.mergeBuffer l) = false
  /\ Pre.mergeBuffer [Some (Pre.mergeBuffer l)] = Pre.mergeBuffer l.
Proof.
  intros H. pose proof (join_clean l H) as Hj.
  unfold Pre.mergeBuffer, Str.strip_backslash.
  rewrite (strip_backslash_from_clean _ true Hj). split; [exact Hj|].
  change (Str.join (map (default "") [Some (Str.join (map (default "") l))]))
    with (Str.join (map (default "") l) +:+ "").
  rewrite append_empty_r. apply strip_backslash_from_clean, Hj.
Qed.

Lemma js_add_clean k v :
  Str.has_backslash (to_str k) = false -> Str.has_backslash (to_str v) = false ->
  Str.has_backslash (js_add k v) = false.
Proof.
  intros Hk Hv. destruct k, v; simpl in *; try reflexivity;
    rewrite has_backslash_app; simpl in *; rewrite ?Hk, ?Hv; reflexivity.
Qed.

Lemma buffer_clean_snoc st b p lv s :
  buffer_clean st -> Str.has_backslash (default "" b) = false ->
  buffer_clean {| Pre.processed := p; Pre.lastValue := lv;
                  Pre.buffer := Pre.buffer st ++ [b]; Pre.absorbing := s |}.
Proof.
  unfold buffer_clean; simpl. intros H Hb. apply Forall_app. split; [exact H|].
  constructor; [exact Hb | constructor].
Qed.

Lemma buffer_clean_nil p lv s :
  buffer_clean {| Pre.processed := p; Pre.lastValue := lv; Pre.buffer := [];
                  Pre.absorbing := s |}.
Proof. constructor. Qed.

Lemma clean_payload (v : option string) :
  Str.has_backslash (to_str v) = false -> Str.has_backslash (default "" v) = false.
Proof. destruct v; simpl; auto. Qed.

(** The second pass over a standalone buffer instruction followed by the
    instruction it was emitted in front of. *)
Lemma second_pass_text st m :
  fst (Pre.step (settled st) (Pre.buffer_instruction m))
  = {| Pre.processed := Pre.processed st; Pre.lastValue := Pre.lastValue st;
       Pre.buffer := [Some m]; Pre.absorbing := true |}.
Proof. reflexivity. Qed.


(** What one turn of the loop does, by the kind of the instruction. *)

Lemma lastValue_is_simple_ext (s1 s2 : Pre.pstate) :
  Pre.processed s1 = Pre.processed s2 -> Pre.lastValue s1 = Pre.lastValue s2 ->
  Pre.lastValue_is_simple s1 = Pre.lastValue_is_simple s2.
Proof. unfold Pre.lastValue_is_simple. intros -> ->. reflexivity. Qed.

Lemma step_simple_taken st k v :
  (bool_decide (Pre.lastValue st = None) || Pre.lastValue_is_simple st)%bool = true ->
  fst (Pre.step st (Instruction.mk "simple" k v))
  = {| Pre.processed := Pre.processed st ++ [Instruction.mk "simple" k v];
       Pre.lastValue := Some (length (Pre.processed st));
       Pre.buffer := []; Pre.absorbing := false |}.
Proof.
  intros H. unfold Pre.step. simpl. rewrite andb_false_r, H. reflexivity.
Qed.

Lemma step_buffer st k v :
  fst (Pre.step st (Instruction.mk "buffer" k v))
  = {| Pre.processed := Pre.processed st; Pre.lastValue := Pre.lastValue st;
       Pre.buffer := Pre.buffer st ++ [v]; Pre.absorbing := true |}.
Proof. unfold Pre.step. simpl. destruct (Pre.absorbing st); reflexivity. Qed.

Lemma step_simple_demoted st k v :
  (bool_decide (Pre.lastValue st = None) || Pre.lastValue_is_simple st)%bool = false ->
  fst (Pre.step st (Instruction.mk "simple" k v))
  = {| Pre.processed := Pre.processed st; Pre.lastValue := Pre.lastValue st;
       Pre.buffer := Pre.buffer st ++ [Some (js_add k v)]; Pre.absorbing := true |}.
Proof.
  intros H. unfold Pre.step. simpl. rewrite andb_false_r, H. reflexivity.
Qed.

Lemma step_value_absorbed st k v :
  Pre.lastValue_is_simple st = true ->
  fst (Pre.step st (Instruction.mk "value" k v))
  = {| Pre.processed := Pre.processed st; Pre.lastValue := Pre.lastValue st;
       Pre.buffer := Pre.buffer st ++ [Some (to_str k +:+ ":" +:+ to_str v)];
       Pre.absorbing := false |}.
Proof.
  intros H. unfold Pre.step. simpl. rewrite andb_false_r, H. reflexivity.
Qed.

Lemma step_value_taken st k v :
  Pre.lastValue_is_simple st = false ->
  fst (Pre.step st (Instruction.mk "value" k v))
  = {| Pre.processed :=
         Pre.push_if_text (Pre.processed st) (Pre.mergeBuffer (Pre.buffer st))
           ++ [Instruction.mk "value" k v];
       Pre.lastValue :=
         Some (length (Pre.push_if_text (Pre.processed st)
                         (Pre.mergeBuffer (Pre.buffer st))));
       Pre.buffer := []; Pre.absorbing := false |}.
Proof.
  intros H. unfold Pre.step. simpl. rewrite andb_false_r, H. reflexivity.
Qed.

Lemma step_other st t k v :
  String.eqb t "simple" = false -> String.eqb t "buffer" = false ->
  String.eqb t "value" = false -> String.eqb t "flush" = false ->
  Pre.is_structural t = false ->
  fst (Pre.step st (Instruction.mk t k v))
  = {| Pre.processed := Pre.processed st ++ [Instruction.mk t k v];
       Pre.lastValue := None; Pre.buffer := Pre.buffer st;
       Pre.absorbing := false |}.
Proof.
  intros H1 H2 H3 H4 H5. unfold Pre.step.
  rewrite H1, H2, H3, H4, H5, andb_false_r. reflexivity.
Qed.

Lemma push_if_text_nothing l : Pre.push_if_text l (Pre.mergeBuffer []) = l.
Proof. reflexivity. Qed.

(** The second pass over the text a first pass has emitted in front of an
    instruction [i], and then over [i]: it comes to [i] with that text
    pending, and emits it again. *)
Lemma second_pass_after_text st m i (F : list instruction -> Pre.pstate) :
  (forall S, Pre.processed S = Pre.processed st ->
             Pre.lastValue S = Pre.lastValue st ->
             fst (Pre.step S i)
             = F (Pre.push_if_text (Pre.processed st) (Pre.mergeBuffer (Pre.buffer S)))) ->
  Pre.mergeBuffer [Some m] = m ->
  fst (Pre.loop (settled st) (Pre.push_if_text [] m ++ [i]))
  = F (Pre.push_if_text (Pre.processed st) m).
Proof.
  intros Hstep Hmm. unfold Pre.push_if_text at 1.
  destruct (Str.truthy (Str.trim m)) eqn:E.
  - change (([] ++ [Pre.buffer_instruction m]) ++ [i])
      with [Pre.buffer_instruction m; i].
    rewrite !loop_cons, second_pass_text.
    rewrite (Hstep {| Pre.processed := Pre.processed st;
                      Pre.lastValue := Pre.lastValue st;
                      Pre.buffer := [Some m]; Pre.absorbing := true |}
               eq_refl eq_refl).
    simpl Pre.buffer. rewrite Hmm. reflexivity.
  - change ([] ++ [i]) with [i]. rewrite loop_cons.
    rewrite (Hstep (settled st) eq_refl eq_refl). simpl Pre.buffer.
    rewrite push_if_text_nothing. unfold Pre.push_if_text. rewrite E. reflexivity.
Qed.

Lemma push_if_text_app l m : Pre.push_if_text l m = l ++ Pre.push_if_text [] m.
Proof.
  unfold Pre.push_if_text. destruct (Str.truthy _); [reflexivity|].
  rewrite app_nil_r. reflexivity.
Qed.

Lemma step_second_pass st i :
  second_pass_agrees st -> not_flush i = true -> no_backslash i = true ->
  second_pass_agrees (fst (Pre.step st i)).
Proof.
  intros [Hclean Hsim] Hnf Hnb. destruct i as [t k v].
  unfold not_flush, no_backslash in Hnf, Hnb. simpl in Hnf, Hnb.
  apply negb_true_iff in Hnf.
  apply andb_true_iff in Hnb as [Hk%negb_true_iff Hv%negb_true_iff].
  destruct (String.eqb t "buffer") eqn:E2.
  { apply String.eqb_eq in E2 as ->. rewrite step_buffer. split.
    - apply buffer_clean_snoc; [exact Hclean | apply clean_payload, Hv].
    - exact Hsim. }
  destruct (String.eqb t "simple") eqn:E1.
  { apply String.eqb_eq in E1 as ->.
    destruct (bool_decide (Pre.lastValue st = None) || Pre.lastValue_is_simple st)%bool eqn:E.
    - rewrite step_simple_taken by exact E. split; [apply buffer_clean_nil|].
      simpl Pre.processed. rewrite loop_app, Hsim, loop_cons.
      rewrite step_simple_taken by exact E. reflexivity.
    - rewrite step_simple_demoted by exact E. split.
      + apply buffer_clean_snoc; [exact Hclean | apply js_add_clean; assumption].
      + exact Hsim. }
  pose proof (mergeBuffer_clean _ Hclean) as [Hm Hmm].
  destruct (String.eqb t "value") eqn:E3.
  { apply String.eqb_eq in E3 as ->.
    destruct (Pre.lastValue_is_simple st) eqn:E.
    - rewrite step_value_absorbed by exact E. split.
      + apply buffer_clean_snoc; [exact Hclean|].
        change (Str.has_backslash (to_str k +:+ ":" +:+ to_str v) = false).
        rewrite !has_backslash_app, Hk, Hv. reflexivity.
      + exact Hsim.
    - rewrite step_value_taken by exact E. split; [apply buffer_clean_nil|].
      simpl Pre.processed.
      transitivity (fst (Pre.loop (settled st)
                           (Pre.push_if_text [] (Pre.mergeBuffer (Pre.buffer st))
                              ++ [Instruction.mk "value" k v]))).
      { rewrite push_if_text_app, <- app_assoc, loop_app, Hsim. reflexivity. }
      apply (second_pass_after_text st _ _
               (fun p => {| Pre.processed := p ++ [Instruction.mk "value" k v];
                            Pre.lastValue := Some (length p);
                            Pre.buffer := []; Pre.absorbing := false |}));
        [|exact Hmm].
      intros S HP HL. rewrite step_value_taken, HP; [reflexivity|].
      rewrite (lastValue_is_simple_ext S st HP HL). exact E. }
  destruct (Pre.is_structural t) eqn:E5.
  { rewrite step_structural by exact E5. split; [apply buffer_clean_nil|].
    simpl Pre.processed.
    transitivity (fst (Pre.loop (settled st)
                         (Pre.push_if_text [] (Pre.mergeBuffer (Pre.buffer st))
                            ++ [Instruction.mk t k v]))).
    { rewrite push_if_text_app, <- app_assoc, loop_app, Hsim. reflexivity. }
    apply (second_pass_after_text st _ _
             (fun p => {| Pre.processed := p ++ [Instruction.mk t k v];
                          Pre.lastValue := None;
                          Pre.buffer := []; Pre.absorbing := false |}));
      [|exact Hmm].
    intros S HP HL. rewrite step_structural, HP; [reflexivity | exact E5]. }
  rewrite step_other by assumption. split.
  - exact Hclean.
  - simpl Pre.processed. rewrite loop_app, Hsim, loop_cons.
    rewrite step_other by assumption. reflexivity.
Qed.

Lemma loop_second_pass s : forall st,
  second_pass_agrees st ->
  forallb not_flush s = true -> forallb no_backslash s = true ->
  second_pass_agrees (fst (Pre.loop st s)).
Proof.
  induction s as [|i rest IH]; intros st Hst Hnf Hnb; [exact Hst|].
  simpl in Hnf, Hnb.
  apply andb_true_iff in Hnf as [Hnf Hnf'].
  apply andb_true_iff in Hnb as [Hnb Hnb'].
  rewrite loop_cons. apply IH; [|assumption|assumption].
  apply step_second_pass; assumption.
Qed.

Lemma second_pass_agrees_init : second_pass_agrees Pre.init.
Proof. split; [constructor | reflexivity]. Qed.

(** C7, as the specification states it, does not hold: the first pass strips one of the two
    leading backslashes of the buffered text and the second pass strips the
    other; and the two standalone buffer instructions that two flushes
    leave next to each other are merged into one by the second pass. *)
Lemma C7_idempotence_counterexample :
  normalized (normalized backslash_stream) <> normalized backslash_stream
  /\ normalized backslash_stream
     = [ Pre.buffer_instruction (String Str.backslash "x") ]
  /\ normalized (normalized backslash_stream) = [ Pre.buffer_instruction "x" ]
  /\ normalized flushed_stream
     = [ Pre.buffer_instruction "a"; Pre.buffer_instruction "b" ]
  /\ normalized (normalized flushed_stream) = [ Pre.buffer_instruction "ab" ].
Proof.
  repeat split; vm_compute; (discriminate || reflexivity).
Qed.

(** C7, amended: for a raw stream that has no flush instruction and no
    backslash in any key or payload, the pre-processing pass run on its own
    output gives that output back, instruction for instruction. *)
Theorem C7_second_pass_is_identity (s : list instruction) :
  forallb not_flush s = true ->
  forallb no_backslash s = true ->
  normalized (normalized s) = normalized s.
Proof.
  intros Hnf Hnb.
  destruct (loop_second_pass s Pre.init second_pass_agrees_init Hnf Hnb)
    as [Hclean Hsim].
  fold (pre_run s) in Hclean, Hsim.
  destruct (mergeBuffer_clean _ Hclean) as [_ Hmm].
  assert (normalized s
          = Pre.push_if_text (Pre.processed (pre_run s))
              (Pre.mergeBuffer (Pre.buffer (pre_run s)))) as Hn
    by (rewrite normalized_eq; reflexivity).
  rewrite Hn. set (P := Pre.processed (pre_run s)) in *.
  set (m := Pre.mergeBuffer (Pre.buffer (pre_run s))) in *.
  rewrite normalized_eq. unfold Pre.finish, pre_run.
  assert (fst (Pre.loop Pre.init (Pre.push_if_text P m))
          = {| Pre.processed := P; Pre.lastValue := Pre.lastValue (pre_run s);
               Pre.buffer := if Str.truthy (Str.trim m) then [Some m] else [];
               Pre.absorbing := Str.truthy (Str.trim m) |}) as ->.
  { unfold Pre.push_if_text. destruct (Str.truthy (Str.trim m)).
    - rewrite loop_app, Hsim, loop_cons, second_pass_text. reflexivity.
    - exact Hsim. }
  simpl. unfold Pre.push_if_text at 2.
  destruct (Str.truthy (Str.trim m)) eqn:E.
  - rewrite Hmm. unfold Pre.push_if_text. rewrite E. reflexivity.
  - reflexivity.
Qed.

Lemma C7_second_pass_is_identity_witness :
  normalized (normalized plain_stream) = normalized plain_stream.
Proof.
  apply (C7_second_pass_is_identity plain_stream); vm_compute; reflexivity.
Defined.

(** ** Further properties of the code *)

(** *** Key paths *)

Lemma append_cons c s t : String c s +:+ t = String c (s +:+ t).
Proof. reflexivity. Qed.

Lemma split_nonempty sep s : Str.split sep s <> [].
Proof.
  destruct s as [|c r]; simpl; [discriminate|].
  destruct (Ascii.eqb c sep); [discriminate|].
  destruct (Str.split sep r); discriminate.
Qed.

Lemma split_no_dot s : no_dot s = true -> Str.split "." s = [s].
Proof.
  induction s as [|c r IH]; simpl; [reflexivity|].
  intros [Hc Hr]%andb_true_iff. apply negb_true_iff in Hc.
  rewrite Hc, (IH Hr). reflexivity.
Qed.

Lemma split_segment s rest :
  no_dot s = true ->
  Str.split "." (s +:+ String "." rest) = s :: Str.split "." rest.
Proof.
  induction s as [|c r IH]; intros H.
  - reflexivity.
  - simpl in H. apply andb_true_iff in H as [Hc Hr]. apply negb_true_iff in Hc.
    rewrite append_cons. simpl. rewrite Hc, (IH Hr). reflexivity.
Qed.

Lemma split_segments_no_dot s : Forall (fun x => no_dot x = true) (Str.split "." s).
Proof.
  induction s as [|c r IH]; simpl; [repeat constructor|].
  destruct (Ascii.eqb c ".") eqn:E; [constructor; [reflexivity | exact IH]|].
  destruct (Str.split "." r) as [|x t]; [repeat constructor; simpl; rewrite E; reflexivity|].
  inversion IH as [|? ? Hx Ht]; subst. constructor; [|exact Ht].
  simpl. rewrite E, Hx. reflexivity.
Qed.

Lemma filter_split_join (l : list string) :
  Forall (fun x => Str.truthy x = true /\ no_dot x = true) l ->
  filter (fun x => Str.truthy x) (Str.split "." (Str.join_with "." l)) = l.
Proof.
  induction 1 as [|x l [Hx Hd] Hl IH]; [reflexivity|].
  destruct l as [|y l'].
  - simpl Str.join_with. rewrite (split_no_dot x Hd).
    rewrite filter_cons_True by (rewrite Hx; exact I). reflexivity.
  - change (Str.join_with "." (x :: y :: l'))
      with (x +:+ String "." (Str.join_with "." (y :: l'))).
    rewrite (split_segment x _ Hd).
    rewrite filter_cons_True by (rewrite Hx; exact I). rewrite IH. reflexivity.
Qed.

Lemma segments_fit k :
  Forall (fun x => Str.truthy x = true /\ no_dot x = true)
    (filter (fun x => Str.truthy x) (Str.split "." k)).
Proof.
  apply Forall_forall. intros x Hx. apply list_elem_of_filter in Hx as [Ht Hin].
  split; [apply Is_true_true, Ht|].
  pose proof (split_segments_no_dot k) as H. rewrite Forall_forall in H. auto.
Qed.

(** X1: with hooks that leave field names alone, the segments
    [normalizeKeypath] returns are not empty and contain no dot, a dot in
    front of the key does not change them, and the key rebuilt from them
    with dots normalizes to the same segments. *)
Theorem normalizeKeypath_segments (b : bool) (k : string) :
  exists segments,
    normalizeKeypath (plain b) (Some k) = Normal segments
    /\ Forall (fun s => s <> "" /\ no_dot s = true) segments
    /\ normalizeKeypath (plain b) (Some (String "." k)) = Normal segments
    /\ normalizeKeypath (plain b) (Some (Str.join_with "." segments)) = Normal segments.
Proof.
  exists (filter (fun x => Str.truthy x) (Str.split "." k)).
  pose proof (segments_fit k) as Hfit.
  unfold normalizeKeypath. simpl onFieldName. rewrite !map_id.
  split; [reflexivity|]. split; [|split].
  - eapply Forall_impl; [exact Hfit|]. intros s [Hs Hd]. split; [|exact Hd].
    intros ->. discriminate.
  - reflexivity.
  - rewrite (filter_split_join _ Hfit). reflexivity.
Qed.

Lemma only_dots_no_segment k :
  only_dots k = true -> filter (fun x => Str.truthy x) (Str.split "." k) = [].
Proof.
  induction k as [|c r IH]; simpl; [reflexivity|].
  intros [Hc Hr]%andb_true_iff. rewrite Hc.
  rewrite filter_cons_False by (exact (fun f => f)). exact (IH Hr).
Qed.

(** X2: a key that is empty or made of dots only has no segment, and
    [setPath] throws on it whatever the target and the value; so a value
    instruction with such a key, met while the current scope is not an
    array, aborts the assembly. *)
Theorem setPath_throws_without_segment (opts : options) (st : state)
    (object v : jsval) (k : string) (payload : option string) :
  only_dots k = true ->
  setPath opts (heap st) object (Some k) v = Throw PropertyOfUndefined
  /\ (is_array (heap st) (top st) = false ->
      value opts st (Some k) payload = Throw PropertyOfUndefined).
Proof.
  intros Hk.
  assert (forall h o x, setPath opts h o (Some k) x = Throw PropertyOfUndefined) as Hset.
  { intros h o x. unfold setPath, normalizeKeypath.
    rewrite (only_dots_no_segment k Hk). reflexivity. }
  split; [apply Hset|].
  intros Harr. unfold value. destruct payload as [p|]; [|reflexivity].
  simpl. rewrite Harr. unfold append. rewrite Harr, Hset. reflexivity.
Qed.

Lemma setPath_throws_without_segment_witness :
  setPath (plain false) (heap init) (VRef root) (Some "..") (VStr "x")
  = Throw PropertyOfUndefined
  /\ (is_array (heap init) (top init) = false ->
      value (plain false) init (Some "..") (Some "x") = Throw PropertyOfUndefined).
Proof.
  apply (setPath_throws_without_segment (plain false) init (VRef root) (VStr "x")
           ".." (Some "x")).
  reflexivity.
Defined.

Lemma proto_inherited proto : inherited proto "__proto__" = true.
Proof.
  unfold inherited. apply bool_decide_eq_true_2, elem_of_app. right.
  apply (bool_decide_unpack _). vm_compute. exact I.
Qed.

Lemma inherited_member_none proto k :
  inherited proto k = false -> inherited_member proto k = Normal VUndef.
Proof.
  intros H. unfold inherited_member. rewrite H.
  destruct (String.eqb_spec k "__proto__") as [->|_]; [|reflexivity].
  rewrite proto_inherited in H. discriminate.
Qed.

(** X3: in an object that has no property under the first segment of the
    key path, neither its own nor one inherited from [Object.prototype],
    [getPath] returns [undefined], however many segments follow. *)
Theorem getPath_missing_segment (opts : options) (h : list cell) (l : loc)
    (m : gmap string jsval) (key : option string) (t : string) (rest : list string) :
  h !! l = Some (Obj m) ->
  normalizeKeypath opts key = Normal (t :: rest) ->
  m !! t = None ->
  inherited [] t = false ->
  getPath opts h (VRef l) key = Normal VUndef.
Proof.
  intros Hl Hsegs Hm Hin. unfold getPath. rewrite Hsegs. simpl.
  destruct rest as [|r rest'].
  - simpl. rewrite Hl, Hm. apply inherited_member_none, Hin.
  - change (pop_terminal (t :: r :: rest'))
      with (last (t :: r :: rest'), t :: removelast (r :: rest')).
    simpl. rewrite Hl, Hm, Hin. simpl. reflexivity.
Qed.

Lemma getPath_missing_segment_witness :
  getPath (plain false) [Obj {[ "a" := VStr "x" ]}] (VRef root) (Some "b.c.d")
  = Normal VUndef.
Proof.
  apply (getPath_missing_segment (plain false) _ root {[ "a" := VStr "x" ]}
           (Some "b.c.d") "b" ["c"; "d"]); reflexivity.
Defined.

(** *** Array indices *)

Lemma digit_of_value c c' :
  Str.is_digit c = true -> Str.is_digit c' = true ->
  nat_of_ascii c - 48 = nat_of_ascii c' - 48 -> c = c'.
Proof.
  unfold Str.is_digit. intros [H1 H2]%andb_true_iff [H3 H4]%andb_true_iff He.
  apply Nat.leb_le in H1, H2, H3, H4.
  rewrite <- (ascii_nat_embedding c), <- (ascii_nat_embedding c'). f_equal. lia.
Qed.

(** The digits read after [acc] add their value to [acc] shifted by their
    number. *)
Lemma digits_value_shift s : forall acc n,
  Str.digits_value acc s = Some n ->
  exists v, (forall acc', Str.digits_value acc' s
                          = Some (acc' * 10 ^ String.length s + v))
            /\ v < 10 ^ String.length s.
Proof.
  induction s as [|c r IH]; intros acc n H; simpl in H.
  - exists 0. simpl. split; [intros acc'; f_equal; lia | lia].
  - destruct (Str.is_digit c) eqn:Ec; [|discriminate].
    destruct (IH _ _ H) as (v' & Hv' & Hlt).
    assert (nat_of_ascii c - 48 <= 9) as Hd.
    { unfold Str.is_digit in Ec. apply andb_true_iff in Ec as [_ Ec].
      apply Nat.leb_le in Ec. lia. }
    exists ((nat_of_ascii c - 48) * 10 ^ String.length r + v'). split.
    + intros acc'. simpl. rewrite Ec, Hv'. f_equal. lia.
    + simpl. nia.
Qed.

Lemma same_digits P d d' v1 v2 :
  v1 < P -> v2 < P -> d * P + v1 = d' * P + v2 -> d = d' /\ v1 = v2.
Proof.
  intros H1 H2 H.
  assert (d = d') as ->.
  { destruct (Nat.lt_trichotomy d d') as [Hl|[Hl|Hl]]; [|exact Hl|].
    - assert (S d * P <= d' * P) by (apply Nat.mul_le_mono_r; lia). simpl in *. lia.
    - assert (S d' * P <= d * P) by (apply Nat.mul_le_mono_r; lia). simpl in *. lia. }
  split; [reflexivity | lia].
Qed.

Lemma digits_value_same_length s : forall s' v,
  String.length s = String.length s' ->
  Str.digits_value 0 s = Some v -> Str.digits_value 0 s' = Some v -> s = s'.
Proof.
  induction s as [|c r IH]; intros [|c' r'] v Hlen H H'; try discriminate; [reflexivity|].
  simpl in Hlen. injection Hlen as Hlen. simpl in H, H'.
  destruct (Str.is_digit c) eqn:Ec; [|discriminate].
  destruct (Str.is_digit c') eqn:Ec'; [|discriminate].
  destruct (digits_value_shift _ _ _ H) as (v1 & Hv1 & Hlt1).
  destruct (digits_value_shift _ _ _ H') as (v2 & Hv2 & Hlt2).
  rewrite Hv1 in H. rewrite Hv2 in H'. injection H as H. injection H' as H'.
  rewrite <- Hlen in *.
  assert (nat_of_ascii c - 48 = nat_of_ascii c' - 48 /\ v1 = v2) as [Hd Hv].
  { apply (same_digits (10 ^ String.length r)); [exact Hlt1 | exact Hlt2 | lia]. }
  f_equal; [apply digit_of_value; assumption|].
  apply (IH r' v1 Hlen).
  - rewrite Hv1. reflexivity.
  - rewrite Hv2, Hv. reflexivity.
Qed.

Lemma index_of_bounds s i :
  Str.index_of s = Some i ->
  Str.digits_value 0 s = Some i
  /\ 1 <= String.length s
  /\ i < 10 ^ String.length s
  /\ (2 <= String.length s -> 10 ^ (String.length s - 1) <= i).
Proof.
  unfold Str.index_of. destruct s as [|c r]; [discriminate|].
  destruct (Ascii.eqb c "0" && negb (Str.is_empty r))%bool eqn:E; [discriminate|].
  intros H. split; [exact H|]. split; [simpl; lia|].
  pose proof H as H0. simpl in H0.
  destruct (Str.is_digit c) eqn:Ec; [|discriminate].
  destruct (digits_value_shift _ _ _ H0) as (v & Hv & Hlt).
  rewrite Hv in H0. injection H0 as <-.
  assert (nat_of_ascii c - 48 <= 9) as Hd.
  { unfold Str.is_digit in Ec. apply andb_true_iff in Ec as [_ Ec'].
    apply Nat.leb_le in Ec'. lia. }
  split; [simpl; nia|].
  intros Hlen. simpl in Hlen. simpl String.length.
  replace (S (String.length r) - 1) with (String.length r) by lia.
  assert (1 <= nat_of_ascii c - 48) as Hpos.
  { destruct r as [|c1 r1]; [simpl in Hlen; lia|].
    simpl in E. rewrite andb_true_r in E.
    apply Ascii.eqb_neq in E.
    assert (nat_of_ascii c <> 48).
    { intros Hc. apply E. rewrite <- (ascii_nat_embedding c), Hc. reflexivity. }
    unfold Str.is_digit in Ec. apply andb_true_iff in Ec as [Ec' _].
    apply Nat.leb_le in Ec'. lia. }
  nia.
Qed.

(** Two property names that are the same array index are the same name. *)
Lemma index_of_inj s s' i :
  Str.index_of s = Some i -> Str.index_of s' = Some i -> s = s'.
Proof.
  intros H H'.
  destruct (index_of_bounds _ _ H) as (Hv & Hpos & Hlt & Hge).
  destruct (index_of_bounds _ _ H') as (Hv' & Hpos' & Hlt' & Hge').
  assert (String.length s = String.length s') as Hlen.
  { destruct (Nat.lt_trichotomy (String.length s) (String.length s')) as [Hl|[Hl|Hl]];
      [|exact Hl|].
    - assert (10 ^ String.length s <= 10 ^ (String.length s' - 1))
        by (apply Nat.pow_le_mono_r; lia).
      specialize (Hge' ltac:(lia)). lia.
    - assert (10 ^ String.length s' <= 10 ^ (String.length s - 1))
        by (apply Nat.pow_le_mono_r; lia).
      specialize (Hge ltac:(lia)). lia. }
  eapply digits_value_same_length; eassumption.
Qed.

(** *** Writing a key path and reading it back *)

Lemma edge_alloc h c v k x : edge h v k x -> edge (fst (alloc h c)) v k x.
Proof.
  unfold edge, has_property, get_property. simpl.
  destruct v as [| | | |l|]; try (intros [H _]; discriminate).
  destruct (h !! l) as [cl|] eqn:E; [|intros [H _]; discriminate].
  rewrite lookup_app_l by (eapply lookup_lt_Some, E). rewrite E. exact (fun H => H).
Qed.

(** A write to the property [t] of [b], other than a new length, leaves
    every other property of every value as it was, except that the length
    of an array may have grown. *)
Lemma set_property_frame h b t x h' v k :
  set_property h b t x = Normal h' -> v <> b \/ k <> t ->
  t <> "length" \/ (exists c, x = VRef c) ->
  has_property h' v k = has_property h v k
  /\ (get_property h' v k = get_property h v k
      \/ exists n n', get_property h v k = Normal (VNum n)
                      /\ get_property h' v k = Normal (VNum n')).
Proof.
  intros H Hk Hlen.
  apply set_property_Normal in H
    as [-> | [(l & m & -> & Hl & ->)
       | [(l & t0 & es & i & -> & Hl & Hi & Hcase)
         | (l & t0 & es & n & -> & Hl & -> & Hn & ->)]]];
    [auto | | |].
  - destruct v as [| | | |l1|]; try (split; [reflexivity | left; reflexivity]).
    unfold has_property, get_property.
    destruct (decide (l = l1)) as [->|Hne].
    + rewrite list_lookup_insert_eq by (eapply lookup_lt_Some, Hl). rewrite Hl.
      destruct Hk as [Hk|Hk]; [congruence|].
      rewrite lookup_insert_ne by congruence. auto.
    + rewrite list_lookup_insert_ne by exact Hne. auto.
  - destruct v as [| | | |l1|]; try (split; [reflexivity | left; reflexivity]).
    unfold has_property, get_property.
    destruct (decide (l = l1)) as [->|Hne].
    2:{ destruct Hcase as [[_ ->] | [_ ->]];
          rewrite list_lookup_insert_ne by exact Hne; auto. }
    destruct Hk as [Hk|Hk]; [congruence|].
    assert (forall j, Str.index_of k = Some j -> j <> i) as Hji.
    { intros j Hj ->. apply Hk. eapply index_of_inj; eassumption. }
    assert (l1 < length h) as Hlt by (eapply lookup_lt_Some, Hl).
    destruct Hcase as [[Hlt' ->] | [Heq ->]];
      rewrite list_lookup_insert_eq by exact Hlt; rewrite Hl.
    + rewrite length_insert.
      destruct (Str.index_of k) as [j|] eqn:Ej; [|auto].
      pose proof (Hji j eq_refl) as Hne.
      rewrite list_lookup_insert_ne by congruence. auto.
    + rewrite length_app. simpl length.
      destruct (Str.index_of k) as [j|] eqn:Ej.
      * pose proof (Hji j eq_refl) as Hne.
        split.
        -- f_equal. apply bool_decide_ext. lia.
        -- left. f_equal. destruct (decide (j < length es)) as [Hj|Hj].
           ++ rewrite lookup_app_l by exact Hj. reflexivity.
           ++ rewrite lookup_app_r by lia.
              rewrite (lookup_ge_None_2 es j) by lia.
              destruct (j - length es) as [|d] eqn:Ed; [lia|]. reflexivity.
      * split; [reflexivity|].
        destruct (String.eqb k "length"); [right; eauto | left; reflexivity].
  - destruct Hlen as [Hlen | [c ->]]; [contradiction | discriminate].
Qed.

Lemma edge_frame h b t h' v k c0 c :
  set_property h b t (VRef c0) = Normal h' -> v <> b \/ k <> t ->
  edge h v k c -> edge h' v k c.
Proof.
  intros H Hk [Hp Hg].
  destruct (set_property_frame _ _ _ _ _ v k H Hk) as [Hp' Hg']; [right; eauto|].
  split; [rewrite Hp'; exact Hp|].
  destruct Hg' as [-> | (n & n' & Hn & _)]; [exact Hg|].
  rewrite Hg in Hn. discriminate.
Qed.

(** What was written to an object or an array is read back, unless the
    write was an assignment to [__proto__], which the inherited setter
    takes, or to the length of an array. *)
Lemma set_property_read h l t x h' :
  set_property h (VRef l) t x = Normal h' ->
  (t <> "__proto__" /\ t <> "length") \/ (exists c, x = VRef c) ->
  has_property h' (VRef l) t = Normal true
  /\ get_property h' (VRef l) t = Normal x.
Proof.
  unfold set_property, set_prototype. intros H Ht.
  assert (l < length h) as Hlt.
  { destruct (h !! l) eqn:E; [eapply lookup_lt_Some, E | discriminate]. }
  assert (forall m, has_property (<[l := Obj (<[t := x]> m)]> h) (VRef l) t = Normal true
                    /\ get_property (<[l := Obj (<[t := x]> m)]> h) (VRef l) t = Normal x)
    as Hobj.
  { intros m. unfold has_property, get_property.
    rewrite list_lookup_insert_eq by exact Hlt. rewrite lookup_insert_eq.
    split; [|reflexivity]. rewrite bool_decide_eq_true_2 by eauto. reflexivity. }
  destruct (h !! l) as [[m|t0 es]|] eqn:E; try discriminate.
  - destruct (String.eqb_spec t "__proto__") as [->|Hne]; simpl in H.
    + destruct (bool_decide (is_Some (m !! "__proto__"))); simpl in H.
      * injection H as <-. apply Hobj.
      * destruct Ht as [[Ht _]|[c ->]]; [contradiction | discriminate].
    + injection H as <-. apply Hobj.
  - destruct (Str.index_of t) as [i|] eqn:Ei.
    + destruct (bool_decide (i < length es)) eqn:Elt.
      * apply bool_decide_eq_true in Elt. injection H as <-.
        unfold has_property, get_property.
        rewrite list_lookup_insert_eq by exact Hlt. rewrite Ei, length_insert.
        rewrite bool_decide_eq_true_2 by exact Elt.
        rewrite list_lookup_insert_eq by exact Elt. split; reflexivity.
      * destruct (bool_decide (i = length es)) eqn:Eeq; [|discriminate].
        apply bool_decide_eq_true in Eeq. injection H as <-. subst i.
        unfold has_property, get_property.
        rewrite list_lookup_insert_eq by exact Hlt. rewrite Ei, length_app.
        rewrite bool_decide_eq_true_2 by (simpl; lia).
        rewrite list_lookup_middle by reflexivity. split; reflexivity.
    + destruct (String.eqb_spec t "__proto__") as [->|Hne].
      * destruct Ht as [[Ht _]|[c ->]]; [contradiction | discriminate].
      * destruct (String.eqb_spec t "length") as [->|Hne']; [|discriminate].
        destruct Ht as [[_ Ht]|[c ->]]; [contradiction | discriminate].
Qed.

Lemma has_property_target h v k b : has_property h v k = Normal b -> exists l, v = VRef l.
Proof. destruct v; simpl; try discriminate. eauto. Qed.

Lemma set_property_target h b t x h' :
  set_property h b t x = Normal h' -> t <> "__proto__" -> exists l, b = VRef l.
Proof.
  intros H Ht. destruct b; simpl in H; try discriminate; eauto;
    destruct (String.eqb_spec t "__proto__"); try contradiction; discriminate.
Qed.

Lemma typeof_object v : String.eqb (typeof v) "object" = true -> exists c, v = VRef c.
Proof. destruct v; simpl; try discriminate. eauto. Qed.

(** The loop of [setPath] replaces a property only where it is missing or
    holds no object: the references it finds are all kept. *)
Lemma setPath_loop_keeps_edges keypath : forall h branch h1 b,
  setPath_loop h branch keypath = Normal (h1, b) ->
  forall v k c, edge h v k c -> edge h1 v k c.
Proof.
  induction keypath as [|k0 rest IH]; intros h branch h1 b H v k c He; simpl in H.
  - injection H as <- _. exact He.
  - bind_inv H. bind_inv H.
    destruct (negb a || negb (String.eqb (typeof a0) "object"))%bool eqn:Ec.
    + bind_inv H. bind_inv H. eapply IH; [eassumption|].
      eapply edge_frame; [exact Ha1| |apply edge_alloc, He].
      destruct (decide (v = branch)) as [->|Hv]; [|left; exact Hv].
      right. intros ->. destruct He as [Hp Hg].
      rewrite Hp in Ha. injection Ha as <-. simpl in Ha0.
      rewrite Hg in Ha0. injection Ha0 as <-. simpl in Ec. discriminate.
    + eapply IH; eassumption.
Qed.

(** After the loop of [setPath], the loop of [getPath] walks the same path
    to the same object. *)
Lemma setPath_loop_walk keypath : forall h branch h1 b,
  setPath_loop h branch keypath = Normal (h1, b) ->
  getPath_loop h1 branch keypath = Normal (Some b).
Proof.
  induction keypath as [|k0 rest IH]; intros h branch h1 b H; simpl in H.
  - injection H as <- <-. reflexivity.
  - bind_inv H. bind_inv H.
    destruct (has_property_target _ _ _ _ Ha) as [l ->].
    destruct (negb a || negb (String.eqb (typeof a0) "object"))%bool eqn:Ec.
    + bind_inv H. bind_inv H.
      destruct (set_property_read _ _ _ _ _ Ha1) as (Hp & Hg); [right; eauto|].
      rewrite Hg in Ha2. injection Ha2 as <-.
      assert (edge h1 (VRef l) k0 (length h)) as [Hp1 Hg1]
        by (eapply setPath_loop_keeps_edges; [exact H | split; assumption]).
      cbn [getPath_loop]. rewrite Hp1. cbn [mbind completion_bind negb].
      rewrite Hg1. cbn [mbind completion_bind]. eapply IH, H.
    + apply orb_false_iff in Ec as [Epres Eobj].
      apply negb_false_iff in Epres, Eobj. subst a.
      destruct (typeof_object _ Eobj) as [c ->]. simpl in Ha0.
      assert (edge h1 (VRef l) k0 c) as [Hp1 Hg1]
        by (eapply setPath_loop_keeps_edges; [exact H | split; assumption]).
      cbn [getPath_loop]. rewrite Hp1. cbn [mbind completion_bind negb].
      rewrite Hg1. cbn [mbind completion_bind]. eapply IH, H.
Qed.

(** A write to a property that is not on the path leaves the walk to an
    object or an array alone. *)
Lemma getPath_loop_frame keypath : forall h b t x h' branch c,
  set_property h b t x = Normal h' -> t <> "length" -> t ∉ keypath ->
  getPath_loop h branch keypath = Normal (Some (VRef c)) ->
  getPath_loop h' branch keypath = Normal (Some (VRef c)).
Proof.
  induction keypath as [|k0 rest IH]; intros h b t x h' branch c Hset Hlen Ht H;
    simpl in *.
  - exact H.
  - apply not_elem_of_cons in Ht as [Hne Hrest].
    destruct (set_property_frame _ _ _ _ _ branch k0 Hset) as [Hp Hg];
      [right; congruence | left; exact Hlen |].
    rewrite Hp.
    destruct (has_property h branch k0) as [p| |]; simpl in *; try discriminate.
    destruct p; simpl in *; [|discriminate].
    destruct Hg as [-> | (n & n' & Hn & Hn')].
    + destruct (get_property h branch k0) as [next| |]; simpl in *; try discriminate.
      eapply IH; eassumption.
    + rewrite Hn in H. simpl in H. destruct rest; simpl in H; discriminate.
Qed.

(** X4: what [setPath] has stored under a key path, [getPath] reads back
    under the same key, provided the last segment carries no plus sign
    ([setPath] strips it, [getPath] does not), does not occur earlier in
    the path, and is neither [__proto__] (an assignment to it runs the
    inherited setter and stores nothing) nor [length] (what is written to
    the length of an array is turned into a number, and cuts the array). *)
Theorem getPath_after_setPath (opts : options) (h h' : list cell)
    (object v branch : jsval) (key : option string)
    (segments : list string) (t : string) :
  normalizeKeypath opts key = Normal segments ->
  last segments = Some t ->
  Str.remove_all "+" t = t ->
  t ∉ removelast segments ->
  t <> "__proto__" -> t <> "length" ->
  setPath opts h object key v = Normal (h', branch) ->
  getPath opts h' object key = Normal (onValue opts (trim_if_string v) t).
Proof.
  intros Hsegs Hlast Hplus Hfresh Hproto Hlen Hset.
  unfold setPath in Hset. unfold getPath. rewrite Hsegs in *. simpl in Hset |- *.
  rewrite Hlast, Hplus in *. simpl in Hset.
  bind_inv Hset. destruct a as [h1 b]. bind_inv Hset. injection Hset as <- <-.
  destruct (set_property_target _ _ _ _ _ Ha0 Hproto) as [l ->].
  pose proof (setPath_loop_walk _ _ _ _ _ Ha) as Hwalk.
  rewrite (getPath_loop_frame (removelast segments) h1 (VRef l) t _ a object l
             Ha0 Hlen Hfresh Hwalk). cbn [mbind completion_bind truthy to_str].
  destruct (set_property_read _ _ _ _ _ Ha0) as (_ & ->); [left; auto | reflexivity].
Qed.

Lemma getPath_after_setPath_witness :
  exists h' branch,
    setPath (plain false) [Obj {[ "a" := VStr "old" ]}] (VRef root) (Some "a.b.c")
      (VStr " x ") = Normal (h', branch)
    /\ getPath (plain false) h' (VRef root) (Some "a.b.c") = Normal (VStr "x").
Proof.
  destruct (setPath (plain false) [Obj {[ "a" := VStr "old" ]}] (VRef root)
              (Some "a.b.c") (VStr " x ")) as [[h' branch]| |] eqn:E;
    [|vm_compute in E; discriminate..].
  exists h', branch. split; [reflexivity|].
  apply (getPath_after_setPath (plain false) [Obj {[ "a" := VStr "old" ]}] h'
           (VRef root) (VStr " x ") branch (Some "a.b.c") ["a"; "b"; "c"] "c").
  - reflexivity.
  - reflexivity.
  - reflexivity.
  - simpl. rewrite !not_elem_of_cons. repeat split; try discriminate.
    apply not_elem_of_nil.
  - discriminate.
  - discriminate.
  - exact E.
Defined.

(** *** Scopes *)

Lemma closes_or_marks_cases i :
  closes_or_marks i = true ->
  Instruction.type i = "closeObject" \/ Instruction.type i = "closeArray"
  \/ Instruction.type i = "flush" \/ Instruction.type i = "skipped".
Proof.
  unfold closes_or_marks. intros H%bool_decide_eq_true.
  repeat (apply elem_of_cons in H as [H|H]; [auto|]).
  apply elem_of_nil in H. contradiction.
Qed.

Lemma step_closes_or_marks st i :
  closes_or_marks i = true ->
  Pre.buffer st = [] -> forallb closes_or_marks (Pre.processed st) = true ->
  Pre.buffer (fst (Pre.step st i)) = []
  /\ forallb closes_or_marks (Pre.processed (fst (Pre.step st i))) = true.
Proof.
  intros Hi Hb Hp. pose proof (closes_or_marks_cases i Hi) as Hc.
  destruct i as [t k v]. simpl in Hc.
  destruct Hc as [-> | [-> | [-> | ->]]]; unfold Pre.step; simpl;
    rewrite andb_false_r, ?Hb; simpl;
    rewrite ?push_if_text_nothing, ?forallb_app, ?Hp; simpl; auto.
Qed.

Lemma loop_closes_or_marks s : forall st,
  forallb closes_or_marks s = true ->
  Pre.buffer st = [] -> forallb closes_or_marks (Pre.processed st) = true ->
  Pre.buffer (fst (Pre.loop st s)) = []
  /\ forallb closes_or_marks (Pre.processed (fst (Pre.loop st s))) = true.
Proof.
  induction s as [|i rest IH]; intros st Hs Hb Hp; [auto|].
  simpl in Hs. apply andb_true_iff in Hs as [Hi Hrest].
  rewrite loop_cons.
  destruct (step_closes_or_marks st i Hi Hb Hp) as [Hb1 Hp1]. apply IH; assumption.
Qed.

Lemma dispatch_closes_or_marks opts i :
  closes_or_marks i = true -> dispatch opts init i = Normal init.
Proof.
  intros Hi. pose proof (closes_or_marks_cases i Hi) as Hc.
  destruct i as [t k v]. simpl in Hc.
  destruct Hc as [-> | [-> | [-> | ->]]]; reflexivity.
Qed.

Lemma build_closes_or_marks opts l :
  forallb closes_or_marks l = true -> fst (build opts init l) = Normal init.
Proof.
  induction l as [|i rest IH]; intros H; [reflexivity|].
  simpl in H. apply andb_true_iff in H as [Hi Hrest].
  cbn [build]. rewrite (dispatch_closes_or_marks opts i Hi).
  specialize (IH Hrest). destruct (build opts init rest). exact IH.
Qed.

(** X6: closings past the root: a stream made of closeObject, closeArray, flush
    and skipped instructions only, however many, assembles to the empty
    document; no closing instruction throws or empties the stack. *)
Theorem assemble_closings_only (opts : options) (s : list instruction) :
  forallb closes_or_marks s = true ->
  fst (assemble opts s) = Normal [Obj ∅]
  /\ fst (build opts init (normalized s)) = Normal init.
Proof.
  intros Hs.
  assert (forallb closes_or_marks (normalized s) = true) as Hn.
  { rewrite normalized_eq. unfold Pre.finish, pre_run.
    destruct (loop_closes_or_marks s Pre.init Hs eq_refl eq_refl) as [-> Hp].
    exact Hp. }
  rewrite assemble_result, (build_closes_or_marks opts _ Hn). split; reflexivity.
Qed.

Lemma assemble_closings_only_witness :
  fst (assemble (plain false) closing_stream) = Normal [Obj ∅]
  /\ fst (build (plain false) init (normalized closing_stream)) = Normal init.
Proof.
  apply (assemble_closings_only (plain false) closing_stream). reflexivity.
Defined.

Lemma top_cons h x rest : top {| heap := h; stack := x :: rest |} = x.
Proof. reflexivity. Qed.

Lemma closeArray_loop_pops h objs : forall fuel x rest,
  Forall (popped_by_closeArray h) objs ->
  closeArray_guard {| heap := h; stack := x :: rest |} = false ->
  length objs <= fuel ->
  closeArray_loop fuel {| heap := h; stack := objs ++ x :: rest |}
  = {| heap := h; stack := x :: rest |}.
Proof.
  induction objs as [|o objs IH]; intros fuel x rest Hobjs Hx Hfuel.
  - destruct fuel; [reflexivity|]. simpl. rewrite Hx. reflexivity.
  - destruct fuel as [|fuel]; [simpl in Hfuel; lia|].
    inversion Hobjs as [|? ? [Ho1 Ho2] Hrest]; subst.
    assert (closeArray_guard {| heap := h; stack := (o :: objs) ++ x :: rest |} = true) as Hg.
    { unfold closeArray_guard. cbn [heap]. rewrite <- app_comm_cons, top_cons, Ho1.
      rewrite bool_decide_eq_false_2 by exact Ho2. reflexivity. }
    cbn [closeArray_loop]. rewrite Hg.
    replace (snd (popContext {| heap := h; stack := (o :: objs) ++ x :: rest |}))
      with {| heap := h; stack := objs ++ x :: rest |}.
    + apply IH; [exact Hrest | exact Hx | simpl in Hfuel; lia].
    + unfold popContext. simpl. destruct objs; reflexivity.
Qed.

Lemma closeArray_pops_the_array h objs rest a :
  Forall (popped_by_closeArray h) objs ->
  is_array h a = true -> rest <> [] ->
  closeArray {| heap := h; stack := objs ++ a :: rest |}
  = {| heap := h; stack := rest |}.
Proof.
  intros Hobjs Ha Hrest. unfold closeArray.
  rewrite closeArray_loop_pops; [| exact Hobjs | | simpl; rewrite length_app; simpl; lia].
  - cbn [heap]. rewrite top_cons, Ha. unfold popContext. cbn [stack heap tail snd].
    destruct rest; [contradiction | reflexivity].
  - unfold closeArray_guard. cbn [heap]. rewrite top_cons, Ha. reflexivity.
Qed.



Lemma adds_content_cases i :
  adds_content i = true ->
  Instruction.type i = "value" \/ Instruction.type i = "simple"
  \/ Instruction.type i = "buffer" \/ Instruction.type i = "flush"
  \/ Instruction.type i = "skipped".
Proof.
  unfold adds_content. intros H%bool_decide_eq_true.
  repeat (apply elem_of_cons in H as [H|H]; [auto 6|]).
  apply elem_of_nil in H. contradiction.
Qed.

(** X8: the handlers of value, simple, buffer, flush and skipped never
    change the context stack: whatever the key and the payload, the stack
    after the instruction is the stack before it. *)
Theorem content_keeps_the_context_stack (opts : options) (st st' : state)
    (i : instruction) :
  adds_content i = true ->
  dispatch opts st i = Normal st' ->
  stack st' = stack st.
Proof.
  intros Hi H. pose proof (adds_content_cases i Hi) as Hc.
  destruct i as [t k v]. simpl in Hc.
  destruct Hc as [-> | [-> | [-> | [-> | ->]]]]; unfold dispatch in H; simpl in H.
  - eapply value_stack, H.
  - eapply simple_stack, H.
  - eapply buffer_stack, H.
  - injection H as <-. reflexivity.
  - injection H as <-. reflexivity.
Qed.

Lemma content_keeps_the_context_stack_witness :
  exists st st',
    fst (build (plain false) init [keyed "object" "section"]) = Normal st
    /\ dispatch (plain false) st (instr "value" "other" "x") = Normal st'
    /\ stack st' = [VRef 1; VRef root].
Proof.
  assert (exists st, fst (build (plain false) init [keyed "object" "section"]) = Normal st
                     /\ stack st = [VRef 1; VRef root]) as (st & Hst & Hstack).
  { eexists. split; vm_compute; reflexivity. }
  destruct (dispatch (plain false) st (instr "value" "other" "x")) as [st'| |] eqn:E.
  - exists st, st'. split; [exact Hst|]. split; [exact E|].
    rewrite <- Hstack.
    apply (content_keeps_the_context_stack (plain false) st st'
             (instr "value" "other" "x")); [reflexivity | exact E].
  - vm_compute in Hst. injection Hst as <-. vm_compute in E. discriminate.
  - vm_compute in Hst. injection Hst as <-. vm_compute in E. discriminate.
Defined.

(** X9: object then closeObject: the pair leaves the context stack as it was
    when the key starts with a dot, and as the root alone when it does
    not. *)
Theorem closeObject_after_object (opts : options) (st st1 : state) (k : string) :
  stack st <> [] ->
  object opts st (Some k) = Normal st1 ->
  stack (closeObject st1)
  = if Str.first_is "." k then stack st else [VRef root].
Proof.
  intros Hne H. unfold object in H. bind_inv H. destruct a as [target st0].
  bind_inv H.
  assert (stack st0 = if Str.first_is "." k then stack st else [VRef root]) as Hst0.
  { unfold getTarget in Ha. destruct (Str.first_is "." k); injection Ha as <- <-; reflexivity. }
  assert (stack st0 <> []) as Hne0.
  { rewrite Hst0. destruct (Str.first_is "." k); [exact Hne | discriminate]. }
  assert (forall h o, stack (closeObject (pushContext (with_heap st0 h) o)) = stack st0) as Hpop.
  { intros h o. unfold closeObject, popContext, pushContext. simpl.
    destruct (stack st0); [contradiction | reflexivity]. }
  destruct (negb _).
  - bind_inv H. injection H as <-. rewrite Hpop. exact Hst0.
  - bind_inv H. injection H as <-. rewrite Hpop. exact Hst0.
Qed.

Lemma closeObject_after_object_witness :
  exists st1,
    object (plain false) init (Some "section") = Normal st1
    /\ stack (closeObject st1) = [VRef root].
Proof.
  destruct (object (plain false) init (Some "section")) as [st1| |] eqn:E;
    [|vm_compute in E; discriminate..].
  exists st1. split; [reflexivity|].
  apply (closeObject_after_object (plain false) init st1 "section");
    [discriminate | exact E].
Defined.

(** *** More on the pre-processing pass *)

Section HandedOn.

(** A choice of kinds that has none of the kinds the pass treats as text. *)
Variable p : string -> bool.
Hypothesis p_simple : p "simple" = false.
Hypothesis p_buffer : p "buffer" = false.
Hypothesis p_value : p "value" = false.
Hypothesis p_flush : p "flush" = false.

Local Abbreviation chosen := (fun i : instruction => p (Instruction.type i)).

Lemma filter_chosen_snoc_false (l : list instruction) (x : instruction) :
  p (Instruction.type x) = false -> filter chosen (l ++ [x]) = filter chosen l.
Proof.
  intros H. rewrite filter_app, filter_cons_False, filter_nil, app_nil_r;
    [reflexivity | rewrite H; exact (fun f => f)].
Qed.

Lemma filter_chosen_alter f n (l : list instruction) a :
  l !! n = Some a -> p (Instruction.type a) = false ->
  p (Instruction.type (f a)) = false ->
  filter chosen (alter f n l) = filter chosen l.
Proof.
  revert n. induction l as [|x l IH]; intros [|n] Hl Ha Hfa; try discriminate.
  - injection Hl as ->. change (alter f 0 (a :: l)) with (f a :: l).
    rewrite !filter_cons_False; [reflexivity | rewrite Ha | rewrite Hfa];
      exact (fun f => f).
  - change (alter f (S n) (x :: l)) with (x :: alter f n l).
    rewrite !filter_cons. rewrite (IH n Hl Ha Hfa). reflexivity.
Qed.

Lemma push_if_text_chosen l m :
  filter chosen (Pre.push_if_text l m) = filter chosen l.
Proof.
  unfold Pre.push_if_text. destruct (Str.truthy _); [|reflexivity].
  apply filter_chosen_snoc_false. exact p_buffer.
Qed.

Lemma anchor_rejected_snoc st x b s :
  anchor_rejected p st ->
  anchor_rejected p
    {| Pre.processed := Pre.processed st ++ [x]; Pre.lastValue := Pre.lastValue st;
       Pre.buffer := b; Pre.absorbing := s |}.
Proof.
  intros H n Hn. simpl in *. destruct (H n Hn) as (a & Ha & Hs).
  exists a. split; [|exact Hs].
  rewrite lookup_app_l; [exact Ha | eapply lookup_lt_Some, Ha].
Qed.

Lemma anchor_rejected_new l x b s :
  p (Instruction.type x) = false ->
  anchor_rejected p
    {| Pre.processed := l ++ [x]; Pre.lastValue := Some (length l);
       Pre.buffer := b; Pre.absorbing := s |}.
Proof.
  intros Hx n [= <-]. exists x. split; [|exact Hx].
  simpl. apply list_lookup_middle. reflexivity.
Qed.

Lemma anchor_rejected_none l b s :
  anchor_rejected p
    {| Pre.processed := l; Pre.lastValue := None; Pre.buffer := b;
       Pre.absorbing := s |}.
Proof. intros n [=]. Qed.

Lemma step_hands_on st i :
  anchor_rejected p st ->
  anchor_rejected p (fst (Pre.step st i))
  /\ filter chosen (Pre.processed (fst (Pre.step st i)))
     = filter chosen (Pre.processed st) ++ filter chosen [i].
Proof.
  intros Hok. destruct i as [t k v].
  assert (forall x : instruction, p (Instruction.type x) = false ->
                                  filter chosen [x] = []) as Hnil.
  { intros x Hx. rewrite filter_cons_False; [reflexivity | rewrite Hx; exact (fun f => f)]. }
  destruct (String.eqb t "buffer") eqn:E2.
  { apply String.eqb_eq in E2 as ->. rewrite step_buffer.
    split; [exact Hok|]. simpl Pre.processed.
    rewrite Hnil by exact p_buffer. rewrite app_nil_r. reflexivity. }
  destruct (String.eqb t "simple") eqn:E1.
  { apply String.eqb_eq in E1 as ->.
    destruct (bool_decide (Pre.lastValue st = None) || Pre.lastValue_is_simple st)%bool eqn:E.
    - rewrite step_simple_taken by exact E.
      split; [apply anchor_rejected_new; exact p_simple|]. simpl Pre.processed.
      rewrite filter_app. reflexivity.
    - rewrite step_simple_demoted by exact E.
      split; [exact Hok|]. simpl Pre.processed.
      rewrite Hnil by exact p_simple. rewrite app_nil_r. reflexivity. }
  destruct (String.eqb t "value") eqn:E3.
  { apply String.eqb_eq in E3 as ->.
    destruct (Pre.lastValue_is_simple st) eqn:E.
    - rewrite step_value_absorbed by exact E.
      split; [exact Hok|]. simpl Pre.processed.
      rewrite Hnil by exact p_value. rewrite app_nil_r. reflexivity.
    - rewrite step_value_taken by exact E.
      split; [apply anchor_rejected_new; exact p_value|]. simpl Pre.processed.
      rewrite filter_app, push_if_text_chosen. reflexivity. }
  destruct (String.eqb t "flush") eqn:E4.
  { apply String.eqb_eq in E4 as ->. unfold Pre.step. simpl.
    rewrite andb_false_r. simpl.
    rewrite Hnil by exact p_flush. rewrite app_nil_r.
    destruct (Pre.buffer st) as [|b bs]; [split; [exact Hok | reflexivity]|].
    destruct (Pre.lastValue st) as [n|] eqn:En.
    - destruct (Hok n En) as (a & Ha & Hs).
      destruct (Str.truthy _).
      + split.
        * intros n' Hn'. simpl in *. injection Hn' as <-.
          exists (Pre.append_to_value (Pre.mergeBuffer (b :: bs)) a). split; [|exact Hs].
          rewrite list_lookup_alter, Ha, decide_True by reflexivity. reflexivity.
        * simpl. eapply filter_chosen_alter; [exact Ha | exact Hs | exact Hs].
      + split.
        * intros n' Hn'. simpl in *. injection Hn' as <-.
          exists a. split; [|exact Hs].
          rewrite lookup_app_l; [exact Ha | eapply lookup_lt_Some, Ha].
        * simpl. apply filter_chosen_snoc_false. exact p_buffer.
    - split; [apply anchor_rejected_none|]. simpl.
      apply filter_chosen_snoc_false. exact p_buffer. }
  destruct (Pre.is_structural t) eqn:E5.
  { rewrite step_structural by exact E5.
    split; [apply anchor_rejected_none|]. simpl Pre.processed.
    rewrite filter_app, push_if_text_chosen. reflexivity. }
  rewrite step_other by assumption.
  split; [apply anchor_rejected_none|]. simpl Pre.processed. apply filter_app.
Qed.

Lemma loop_hands_on s : forall st,
  anchor_rejected p st ->
  anchor_rejected p (fst (Pre.loop st s))
  /\ filter chosen (Pre.processed (fst (Pre.loop st s)))
     = filter chosen (Pre.processed st) ++ filter chosen s.
Proof.
  induction s as [|i rest IH]; intros st Hok.
  - simpl. rewrite app_nil_r. auto.
  - rewrite loop_cons.
    destruct (step_hands_on st i Hok) as [Hok1 H1].
    destruct (IH _ Hok1) as [Hok2 H2].
    split; [exact Hok2|].
    rewrite H2, H1, <- app_assoc, <- filter_app. reflexivity.
Qed.

Lemma normalized_hands_on s : filter chosen (normalized s) = filter chosen s.
Proof.
  rewrite normalized_eq. unfold Pre.finish, pre_run.
  rewrite push_if_text_chosen.
  destruct (loop_hands_on s Pre.init) as [_ H]; [apply anchor_rejected_none|].
  exact H.
Qed.

End HandedOn.

(** X11: the instructions of every kind other than simple, buffer, value and
    flush (the structural ones, skipped, and any kind the assembler does not
    know) come out of the pre-processing pass unchanged, all of them, in
    the order they came in. *)
Theorem normalized_keeps_other_kinds (s : list instruction) :
  filter (fun i => handed_on (Instruction.type i)) (normalized s)
  = filter (fun i => handed_on (Instruction.type i)) s.
Proof. apply normalized_hands_on; reflexivity. Qed.

Lemma step_no_flush st i :
  forallb not_flush (Pre.processed st) = true ->
  forallb not_flush (Pre.processed (fst (Pre.step st i))) = true.
Proof.
  intros Hp. destruct i as [t k v].
  assert (forall m, forallb not_flush (Pre.push_if_text (Pre.processed st) m) = true) as Hpush.
  { intros m. unfold Pre.push_if_text. destruct (Str.truthy _); [|exact Hp].
    rewrite forallb_app, Hp. reflexivity. }
  destruct (String.eqb t "buffer") eqn:E2.
  { apply String.eqb_eq in E2 as ->. rewrite step_buffer. exact Hp. }
  destruct (String.eqb t "simple") eqn:E1.
  { apply String.eqb_eq in E1 as ->.
    destruct (bool_decide (Pre.lastValue st = None) || Pre.lastValue_is_simple st)%bool eqn:E.
    - rewrite step_simple_taken by exact E. simpl. rewrite forallb_app, Hp. reflexivity.
    - rewrite step_simple_demoted by exact E. exact Hp. }
  destruct (String.eqb t "value") eqn:E3.
  { apply String.eqb_eq in E3 as ->.
    destruct (Pre.lastValue_is_simple st) eqn:E.
    - rewrite step_value_absorbed by exact E. exact Hp.
    - rewrite step_value_taken by exact E. simpl. rewrite forallb_app, Hpush. reflexivity. }
  destruct (String.eqb t "flush") eqn:E4.
  { apply String.eqb_eq in E4 as ->. unfold Pre.step. simpl. rewrite andb_false_r. simpl.
    destruct (Pre.buffer st) as [|b bs]; [exact Hp|].
    assert (forallb not_flush
              (Pre.processed st ++ [Pre.buffer_instruction (Pre.mergeBuffer (b :: bs))])
            = true) as Hsnoc by (rewrite forallb_app, Hp; reflexivity).
    destruct (Pre.lastValue st) as [n|]; [|exact Hsnoc].
    destruct (Str.truthy _); [|exact Hsnoc].
    apply forallb_forall. intros x Hx.
    apply list_elem_of_In, list_elem_of_lookup in Hx as [j Hj].
    rewrite list_lookup_alter in Hj.
    rewrite forallb_forall in Hp.
    assert (forall i y, Pre.processed st !! i = Some y -> not_flush y = true) as Hall
      by (intros i y Hy; apply Hp, list_elem_of_In, list_elem_of_lookup; eauto).
    destruct (decide (n = j)) as [->|_]; [|eapply Hall, Hj].
    destruct (Pre.processed st !! j) as [y|] eqn:Ey; [|discriminate].
    simpl in Hj. injection Hj as <-. exact (Hall j y Ey). }
  destruct (Pre.is_structural t) eqn:E5.
  { rewrite step_structural by exact E5. simpl. rewrite forallb_app, Hpush. simpl.
    unfold not_flush. simpl. rewrite E4. reflexivity. }
  rewrite step_other by assumption. simpl. rewrite forallb_app, Hp. simpl.
  unfold not_flush. simpl. rewrite E4. reflexivity.
Qed.

(** X12: the normalized stream holds no flush instruction: every flush is used
    up by the pre-processing pass, and the builder's [flush] handler is
    never called for an instruction of the raw stream. *)
Theorem normalized_has_no_flush (s : list instruction) :
  forallb not_flush (normalized s) = true.
Proof.
  assert (forall s st, forallb not_flush (Pre.processed st) = true ->
                       forallb not_flush (Pre.processed (fst (Pre.loop st s))) = true) as Hloop.
  { clear s. induction s as [|i rest IH]; intros st Hp; [exact Hp|].
    rewrite loop_cons. apply IH, step_no_flush, Hp. }
  rewrite normalized_eq. unfold Pre.finish, Pre.push_if_text, pre_run.
  specialize (Hloop s Pre.init eq_refl).
  destruct (Str.truthy _); [|exact Hloop].
  rewrite forallb_app, Hloop. reflexivity.
Qed.

Lemma push_if_text_length l b :
  length (Pre.push_if_text l (Pre.mergeBuffer b))
  <= length l + match b with [] => 0 | _ :: _ => 1 end.
Proof.
  unfold Pre.push_if_text. destruct b as [|x b].
  - simpl. lia.
  - destruct (Str.truthy _); rewrite ?length_app; simpl; lia.
Qed.

Lemma step_length st i :
  length (Pre.processed (fst (Pre.step st i))) + pending (fst (Pre.step st i))
  <= length (Pre.processed st) + pending st + 1.
Proof.
  destruct i as [t k v]. unfold pending.
  pose proof (push_if_text_length (Pre.processed st) (Pre.buffer st)) as Hpush.
  destruct (String.eqb t "buffer") eqn:E2.
  { apply String.eqb_eq in E2 as ->. rewrite step_buffer. simpl.
    destruct (Pre.buffer st); simpl; lia. }
  destruct (String.eqb t "simple") eqn:E1.
  { apply String.eqb_eq in E1 as ->.
    destruct (bool_decide (Pre.lastValue st = None) || Pre.lastValue_is_simple st)%bool eqn:E.
    - rewrite step_simple_taken by exact E. simpl. rewrite length_app. simpl. lia.
    - rewrite step_simple_demoted by exact E. simpl.
      destruct (Pre.buffer st); simpl; lia. }
  destruct (String.eqb t "value") eqn:E3.
  { apply String.eqb_eq in E3 as ->.
    destruct (Pre.lastValue_is_simple st) eqn:E.
    - rewrite step_value_absorbed by exact E. simpl.
      destruct (Pre.buffer st); simpl; lia.
    - rewrite step_value_taken by exact E. simpl. rewrite length_app. simpl. lia. }
  destruct (String.eqb t "flush") eqn:E4.
  { apply String.eqb_eq in E4 as ->. unfold Pre.step. simpl. rewrite andb_false_r. simpl.
    destruct (Pre.buffer st) as [|b bs]; [lia|].
    destruct (Pre.lastValue st) as [n|];
      [destruct (Str.truthy _)|]; rewrite ?length_alter, ?length_app; simpl; lia. }
  destruct (Pre.is_structural t) eqn:E5.
  { rewrite step_structural by exact E5. simpl. rewrite length_app. simpl. lia. }
  rewrite step_other by assumption. simpl. rewrite length_app. simpl.
  destruct (Pre.buffer st); simpl; lia.
Qed.

(** X13: the pre-processing pass never lengthens a stream: a buffer instruction
    it emits stands for at least one instruction it has absorbed. *)
Theorem normalized_is_not_longer (s : list instruction) :
  length (normalized s) <= length s.
Proof.
  assert (forall s st,
            length (Pre.processed (fst (Pre.loop st s))) + pending (fst (Pre.loop st s))
            <= length (Pre.processed st) + pending st + length s) as Hloop.
  { clear s. induction s as [|i rest IH]; intros st; [simpl; lia|].
    rewrite loop_cons. specialize (IH (fst (Pre.step st i))).
    pose proof (step_length st i). simpl length. lia. }
  rewrite normalized_eq. unfold Pre.finish, pre_run.
  specialize (Hloop s Pre.init).
  pose proof (push_if_text_length (Pre.processed (fst (Pre.loop Pre.init s)))
                (Pre.buffer (fst (Pre.loop Pre.init s)))) as Hpush.
  unfold pending in Hloop. simpl in Hloop. lia.
Qed.

(** X14: a flush after a flush does nothing: the first one has left no pending
    text. *)
Theorem flush_twice_is_flush_once (s : list instruction) (k v k' v' : option string) :
  normalized (s ++ [Instruction.mk "flush" k v; Instruction.mk "flush" k' v'])
  = normalized (s ++ [Instruction.mk "flush" k v]).
Proof.
  rewrite !normalized_eq. unfold pre_run. rewrite !loop_app, !loop_cons.
  simpl Pre.loop. simpl fst.
  set (st := fst (Pre.loop Pre.init s)).
  unfold Pre.step. simpl. rewrite !andb_false_r. reflexivity.
Qed.

(** *** The console *)

Lemma log_quiet o args : log (with_verbose false o) args = [].
Proof. reflexivity. Qed.

Lemma build_quiet o l : forall st, snd (build (with_verbose false o) st l) = [].
Proof.
  induction l as [|i rest IH]; intros st; [reflexivity|].
  cbn [build]. rewrite log_quiet.
  destruct (dispatch (with_verbose false o) st i) as [st1| |]; try reflexivity.
  specialize (IH st1). destruct (build (with_verbose false o) st1 rest). exact IH.
Qed.

(** X15: with [verbose] off, an assembly writes nothing to the console, whatever
    the stream and whether it ends well or throws. *)
Theorem assemble_is_quiet (o : options) (instructions : list instruction) :
  snd (assemble (with_verbose false o) instructions) = [].
Proof.
  unfold assemble. simpl verbose. cbv iota.
  destruct (Pre.preprocess instructions) as [processed msgs].
  pose proof (build_quiet o processed init) as Hb.
  destruct (build (with_verbose false o) init processed) as [result lines].
  simpl in Hb. subst lines. simpl.
  rewrite app_nil_r. induction msgs as [|m msgs IH]; [reflexivity | exact IH].
Qed.

Lemma contains_app c a b :
  contains c (a +:+ b) = (contains c a || contains c b)%bool.
Proof.
  induction a as [|d a IH]; [reflexivity|].
  rewrite append_cons. simpl. rewrite IH, orb_assoc. reflexivity.
Qed.

Lemma contains_replace_all_same c by_ s :
  contains c by_ = false -> contains c (Str.replace_all c by_ s) = false.
Proof.
  intros Hby. induction s as [|d s IH]; [reflexivity|]. simpl.
  destruct (Ascii.eqb d c) eqn:E.
  - rewrite contains_app, Hby, IH. reflexivity.
  - simpl. rewrite E, IH. reflexivity.
Qed.

Lemma contains_replace_all_other c d by_ s :
  contains c by_ = false -> contains c s = false ->
  contains c (Str.replace_all d by_ s) = false.
Proof.
  intros Hby. induction s as [|e s IH]; [reflexivity|]. simpl.
  intros [He Hs]%orb_false_iff.
  destruct (Ascii.eqb e d).
  - rewrite contains_app, Hby, (IH Hs). reflexivity.
  - simpl. rewrite He, (IH Hs). reflexivity.
Qed.

(** X16: a call of [log] writes at most one line, and the line holds neither a
    line feed nor a tab: both are written as a backslash and a letter. *)
Theorem log_writes_one_escaped_line (opts : options) (args : list string) :
  length (log opts args) <= 1
  /\ Forall (fun line => contains Str.newline line = false
                         /\ contains Str.tab line = false)
       (log opts args).
Proof.
  unfold log. destruct (negb (verbose opts)); simpl; [split; [lia | constructor]|].
  split; [lia|]. constructor; [|constructor]. split.
  - apply contains_replace_all_other; [reflexivity|].
    apply contains_replace_all_same. reflexivity.
  - apply contains_replace_all_same. reflexivity.
Qed.

(** *** The store during an assembly *)

Lemma steps_trans h1 h2 h3 :
  rtc store_step h1 h2 -> rtc store_step h2 h3 -> rtc store_step h1 h3.
Proof. apply rtc_trans. Qed.

Lemma steps_alloc h c : rtc store_step h (fst (alloc h c)).
Proof. apply rtc_once, step_new. Qed.

Lemma steps_set_property h v k x h' :
  set_property h v k x = Normal h' -> rtc store_step h h'.
Proof.
  intros H. apply set_property_Normal in H
    as [-> | [(l & m & -> & Hl & ->)
       | [(l & t & es & i & -> & Hl & _ & [[Hlt ->] | [_ ->]])
         | (l & t & es & n & -> & Hl & _ & _ & ->)]]].
  - reflexivity.
  - apply rtc_once, step_write, Hl.
  - apply rtc_once, step_replace; assumption.
  - apply rtc_once, step_push, Hl.
  - apply rtc_once, step_cut, Hl.
Qed.

Lemma steps_push_to h target x h' :
  push_to h target x = Normal h' -> rtc store_step h h'.
Proof.
  intros H. destruct target as [| | | |l|]; try discriminate.
  simpl in H. unfold push in H.
  destruct (h !! l) as [[m|t0 es]|] eqn:E; try discriminate.
  injection H as <-. apply rtc_once, step_push, E.
Qed.

Lemma steps_assignType h l t h' :
  assignType h l t = Normal h' -> rtc store_step h h'.
Proof.
  unfold assignType. intros H.
  destruct (h !! l) as [[m|[t1|] es1]|] eqn:E; try discriminate.
  - destruct (decide (t1 = t)) as [->|]; [|discriminate]. injection H as <-.
    reflexivity.
  - injection H as <-. apply rtc_once, step_tag, E.
Qed.

Lemma steps_assignType_to h target t h' :
  assignType_to h target t = Normal h' -> rtc store_step h h'.
Proof. destruct target; simpl; try discriminate. apply steps_assignType. Qed.

Lemma steps_setPath_loop keypath : forall h branch h' b,
  setPath_loop h branch keypath = Normal (h', b) -> rtc store_step h h'.
Proof.
  induction keypath as [|k rest IH]; intros h branch h' b H; simpl in H.
  - injection H as <- _. reflexivity.
  - bind_inv H. bind_inv H.
    destruct (negb a || negb (String.eqb (typeof a0) "object"))%bool.
    + bind_inv H. bind_inv H.
      eapply steps_trans; [apply (steps_alloc h (Obj ∅))|].
      eapply steps_trans; [eapply steps_set_property; eassumption|].
      eapply IH; eassumption.
    + eapply IH; eassumption.
Qed.

Lemma steps_setPath opts h object key value h' b :
  setPath opts h object key value = Normal (h', b) -> rtc store_step h h'.
Proof.
  unfold setPath. intros H. bind_inv H.
  destruct (pop_terminal a) as [terminal keypath].
  bind_inv H. bind_inv H. destruct a1 as [h1 branch]. bind_inv H.
  injection H as <- _.
  eapply steps_trans; [eapply steps_setPath_loop; eassumption|].
  eapply steps_set_property; eassumption.
Qed.

Lemma steps_addToArray_default opts h target key value h' :
  addToArray_default opts h target key value = Normal h' ->
  rtc store_step h h'.
Proof.
  unfold addToArray_default. intros H.
  bind_inv H. bind_inv H. bind_inv H. destruct a1 as [h1 last].
  bind_inv H. destruct a1 as [h2 b]. injection H as <-.
  eapply steps_trans.
  { destruct (bool_decide (type_tag h target = None));
      [eapply steps_assignType_to; eassumption|].
    injection Ha as <-. reflexivity. }
  eapply steps_trans; [|eapply steps_setPath; eassumption].
  destruct a0.
  - bind_inv Ha1. injection Ha1 as <- _. unfold alloc in Ha3.
    eapply steps_trans; [apply (steps_alloc a (Obj ∅))|].
    eapply steps_push_to; exact Ha3.
  - injection Ha1 as <- _. reflexivity.
Qed.

Lemma steps_addToArray opts h target key value h' :
  addToArray opts h target key value = Normal h' -> rtc store_step h h'.
Proof.
  unfold addToArray. intros H.
  destruct (type_tag h target) as [[| |]|] eqn:E.
  - eapply steps_addToArray_default; exact H.
  - injection H as <-. reflexivity.
  - bind_inv H. unfold alloc in H.
    eapply steps_trans;
      [apply (steps_alloc h (record (VStr a) (trim_if_string value)))|].
    eapply steps_push_to; exact H.
  - eapply steps_addToArray_default; exact H.
Qed.

Lemma steps_append opts h target key value h' :
  append opts h target key value = Normal h' -> rtc store_step h h'.
Proof.
  unfold append. intros H. destruct (is_array h target).
  - eapply steps_addToArray; eassumption.
  - bind_inv H. destruct a as [h1 b]. injection H as <-.
    eapply steps_setPath; eassumption.
Qed.

Lemma steps_push_lines target lines : forall h h',
  push_lines h target lines = Normal h' -> rtc store_step h h'.
Proof.
  induction lines as [|v rest IH]; intros h h' H; simpl in H.
  - injection H as <-. reflexivity.
  - bind_inv H.
    eapply steps_trans;
      [apply (steps_alloc h (record (VStr "text") (VStr (Str.trim v))))|].
    eapply steps_trans; [eapply steps_push_to; eassumption|].
    eapply IH; eassumption.
Qed.

Lemma steps_value opts st k v st' :
  value opts st k v = Normal st' -> rtc store_step (heap st) (heap st').
Proof.
  unfold value. intros H. bind_inv H.
  destruct (is_array (heap st) (top st)).
  - destruct (type_tag (heap st) (top st)) as [[| |]|] eqn:E.
    + bind_inv H. injection H as <-. eapply steps_append; eassumption.
    + injection H as <-. reflexivity.
    + bind_inv H. injection H as <-. simpl.
      eapply steps_trans;
        [apply (steps_alloc (heap st) (record (of_opt k) (VStr a)))|].
      eapply steps_push_to; exact Ha0.
    + bind_inv H. injection H as <-. eapply steps_append; eassumption.
  - bind_inv H. injection H as <-. eapply steps_append; eassumption.
Qed.

Lemma steps_simple opts st k v st' :
  simple opts st k v = Normal st' -> rtc store_step (heap st) (heap st').
Proof.
  unfold simple. intros H.
  destruct (is_array _ _); [|injection H as <-; reflexivity].
  bind_inv H. bind_inv H. injection H as <-. simpl.
  apply (steps_trans _ a).
  - assert (forall h1, (h1 ← assignType_to (heap st) (top st) Simple;
                         v ← trim_payload v; push_to h1 (top st) (VStr v)) = Normal h1 ->
                       rtc store_step (heap st) h1) as Hpush.
    { intros h1 Hh. bind_inv Hh. bind_inv Hh.
      eapply steps_trans; [eapply steps_assignType_to; eassumption|].
      eapply steps_push_to; exact Hh. }
    destruct (type_tag (heap st) (top st)) as [[| |]|]; auto;
      injection Ha as <-; reflexivity.
  - destruct (bool_decide (type_tag a (top st) = Some Freeform)).
    + bind_inv Ha0. unfold alloc in Ha0.
      eapply steps_trans; [apply (steps_alloc a (record (VStr "text") (VStr a1)))|].
      eapply steps_push_to; exact Ha0.
    + injection Ha0 as <-. reflexivity.
Qed.

Lemma steps_object opts st k st' :
  object opts st k = Normal st' -> rtc store_step (heap st) (heap st').
Proof.
  unfold object. intros H. bind_inv H. destruct a as [target st1].
  apply getTarget_heap in Ha. rewrite <- Ha.
  bind_inv H.
  destruct (negb _).
  - bind_inv H. injection H as <-. simpl.
    eapply steps_trans; [apply (steps_alloc (heap st1) (Obj ∅))|].
    eapply steps_append; eassumption.
  - bind_inv H. injection H as <-. simpl. eapply steps_append; eassumption.
Qed.

Lemma steps_array opts st k st' :
  array opts st k = Normal st' ->
  rtc store_step (heap st ++ [Arr None []]) (heap st')
  /\ top st' = VRef (length (heap st)).
Proof.
  unfold array. intros H. bind_inv H. destruct a as [target st1].
  apply getTarget_heap in Ha. rewrite <- Ha.
  bind_inv H. bind_inv H. bind_inv H. injection H as <-. simpl.
  split; [|reflexivity].
  eapply steps_trans; [|eapply steps_append; eassumption].
  destruct (last a) as [l|]; [|discriminate].
  destruct (Str.first_is "+" l).
  - eapply steps_assignType, Ha1.
  - injection Ha1 as <-. reflexivity.
Qed.

Lemma steps_buffer st k v st' :
  buffer st k v = Normal st' -> rtc store_step (heap st) (heap st').
Proof.
  unfold buffer. intros H.
  destruct (top st) eqn:Et; try discriminate;
    (destruct (bool_decide _); [|injection H as <-; reflexivity]);
    bind_inv H; bind_inv H; injection H as <-; simpl;
    eapply steps_push_lines; eassumption.
Qed.

Lemma steps_dispatch opts st i st' :
  dispatch opts st i = Normal st' -> rtc store_step (heap st) (heap st').
Proof.
  unfold dispatch. destruct i as [t k v]. intros H.
  repeat case_match; try discriminate.
  - eapply steps_value; eassumption.
  - eapply steps_simple; eassumption.
  - eapply steps_object; eassumption.
  - injection H as <-. reflexivity.
  - eapply steps_trans; [apply rtc_once, (step_new _ (Arr None []))|].
    eapply steps_array; eassumption.
  - injection H as <-. rewrite closeArray_heap. reflexivity.
  - eapply steps_buffer; eassumption.
  - injection H as <-. reflexivity.
  - injection H as <-. reflexivity.
Qed.

Lemma steps_build opts l : forall st st',
  fst (build opts st l) = Normal st' -> rtc store_step (heap st) (heap st').
Proof.
  induction l as [|i rest IH]; intros st st' H; simpl in *.
  - injection H as <-. reflexivity.
  - destruct (dispatch opts st i) as [s| |] eqn:E; simpl in *; try discriminate.
    destruct (build opts s rest) as [r c] eqn:E2; simpl in *.
    eapply steps_trans; [eapply steps_dispatch; eassumption|].
    apply IH. rewrite E2. exact H.
Qed.
Lemma store_grows_refl h : store_grows h h.
Proof.
  split.
  - intros l m H. exists m. auto.
  - intros l t es H. exists t, es. exact H.
Qed.

Lemma store_grows_trans h1 h2 h3 :
  store_grows h1 h2 -> store_grows h2 h3 -> store_grows h1 h3.
Proof.
  intros [Ho12 Ha12] [Ho23 Ha23]. split.
  - intros l m H. destruct (Ho12 l m H) as (m2 & H2 & Hk2).
    destruct (Ho23 l m2 H2) as (m3 & H3 & Hk3). exists m3. auto.
  - intros l t es H. destruct (Ha12 l t es H) as (t2 & es2 & H2).
    exact (Ha23 l t2 es2 H2).
Qed.

Lemma store_grows_app h c : store_grows h (h ++ [c]).
Proof.
  split.
  - intros l m H. exists m. split; [|auto].
    rewrite lookup_app_l; [exact H | eapply lookup_lt_Some, H].
  - intros l t es H. exists t, es.
    rewrite lookup_app_l; [exact H | eapply lookup_lt_Some, H].
Qed.

Lemma store_grows_insert h l0 c0 c :
  h !! l0 = Some c0 ->
  (forall m, c0 = Obj m ->
             exists m', c = Obj m' /\ forall k, is_Some (m !! k) -> is_Some (m' !! k)) ->
  (forall t es, c0 = Arr t es -> exists t' es', c = Arr t' es') ->
  store_grows h (<[l0 := c]> h).
Proof.
  intros H0 Hobj Harr. split.
  - intros l m H. destruct (decide (l0 = l)) as [->|Hne].
    + rewrite H0 in H. injection H as ->. destruct (Hobj m eq_refl) as (m' & -> & Hk).
      exists m'. split; [|exact Hk].
      apply list_lookup_insert_eq. eapply lookup_lt_Some, H0.
    + exists m. split; [|auto]. rewrite list_lookup_insert_ne by exact Hne. exact H.
  - intros l t es H. destruct (decide (l0 = l)) as [->|Hne].
    + rewrite H0 in H. injection H as ->.
      destruct (Harr t es eq_refl) as (t' & es' & ->).
      exists t', es'. apply list_lookup_insert_eq. eapply lookup_lt_Some, H0.
    + exists t, es. rewrite list_lookup_insert_ne by exact Hne. exact H.
Qed.

Lemma store_grows_step h h' : store_step h h' -> store_grows h h'.
Proof.
  intros [h0 c | h0 l m k x Hl | h0 l t es Hl | h0 l t es x Hl
          | h0 l t es i x Hl Hi | h0 l t es n Hl].
  - apply store_grows_app.
  - eapply store_grows_insert; [exact Hl | | discriminate].
    intros m0 [= <-]. exists (<[k := x]> m). split; [reflexivity|].
    intros k' Hk'. destruct (decide (k = k')) as [->|Hne].
    + rewrite lookup_insert_eq. eauto.
    + rewrite lookup_insert_ne by exact Hne. exact Hk'.
  - eapply store_grows_insert; [exact Hl | discriminate | eauto].
  - eapply store_grows_insert; [exact Hl | discriminate | eauto].
  - eapply store_grows_insert; [exact Hl | discriminate | eauto].
  - eapply store_grows_insert; [exact Hl | discriminate | eauto].
Qed.

Lemma store_grows_steps h h' : rtc store_step h h' -> store_grows h h'.
Proof.
  induction 1 as [h|h1 h2 h3 Hstep _ IH]; [apply store_grows_refl|].
  eapply store_grows_trans; [apply store_grows_step, Hstep | exact IH].
Qed.

(** X17: no cell and no property is ever taken away: whatever instructions
    the builder handles, a cell that is there stays, an object stays an
    object and keeps every property name it has (the value may change),
    and an array stays an array. *)
Theorem store_only_grows (opts : options) (l : list instruction) (st st' : state) :
  fst (build opts st l) = Normal st' ->
  store_grows (heap st) (heap st').
Proof. intros H. eapply store_grows_steps, steps_build, H. Qed.

Lemma store_only_grows_witness :
  exists st', fst (build (plain false) init (normalized tags_stream)) = Normal st'
              /\ store_grows (heap init) (heap st').
Proof.
  destruct (fst (build (plain false) init (normalized tags_stream))) as [st'| |] eqn:E;
    [|vm_compute in E; discriminate..].
  exists st'. split; [reflexivity|].
  apply (store_only_grows (plain false) (normalized tags_stream) init st'). exact E.
Defined.

(** X10: array then closeArray: the pair leaves the context stack as it was
    when the key starts with a dot, and as the root alone when it does
    not. *)
Theorem closeArray_after_array (opts : options) (st st1 : state) (k : string) :
  stack st <> [] ->
  array opts st (Some k) = Normal st1 ->
  stack (closeArray st1)
  = if Str.first_is "." k then stack st else [VRef root].
Proof.
  intros Hne H.
  destruct (steps_array opts st (Some k) st1 H) as [Hsteps _].
  assert (is_array (heap st1) (VRef (length (heap st))) = true) as Harr.
  { destruct (store_grows_steps _ _ Hsteps) as [_ Hg].
    destruct (Hg (length (heap st)) None []) as (t' & es' & Hl);
      [apply list_lookup_middle; reflexivity|].
    simpl. rewrite Hl. reflexivity. }
  assert (exists rest, stack st1 = VRef (length (heap st)) :: rest
                       /\ rest = (if Str.first_is "." k then stack st else [VRef root]))
    as (rest & Hst1 & Hrest).
  { unfold array in H. bind_inv H. destruct a as [target st0].
    pose proof (getTarget_heap _ _ _ _ Ha) as Hh.
    bind_inv H. bind_inv H. bind_inv H. injection H as <-.
    eexists. split; [simpl; rewrite Hh; reflexivity|].
    unfold getTarget in Ha. destruct (Str.first_is "." k); injection Ha as <- <-; reflexivity. }
  assert (rest <> []) as Hrne
    by (rewrite Hrest; destruct (Str.first_is "." k); [exact Hne | discriminate]).
  destruct st1 as [h1 stk1]. simpl in Hst1, Harr. subst stk1.
  pose proof (closeArray_pops_the_array h1 [] rest (VRef (length (heap st)))
                (Forall_nil_2 _) Harr Hrne) as Hclose.
  simpl app in Hclose. rewrite Hclose. exact Hrest.
Qed.

Lemma closeArray_after_array_witness :
  exists st1,
    array (plain false) init (Some "items") = Normal st1
    /\ stack (closeArray st1) = [VRef root].
Proof.
  destruct (array (plain false) init (Some "items")) as [st1| |] eqn:E;
    [|vm_compute in E; discriminate..].
  exists st1. split; [reflexivity|].
  apply (closeArray_after_array (plain false) init st1 "items");
    [discriminate | exact E].
Defined.

(** *** What the handlers add to an array *)

Lemma trim_end_idempotent s : Str.trim_end (Str.trim_end s) = Str.trim_end s.
Proof.
  induction s as [|c r IH]; [reflexivity|]. simpl.
  destruct (Str.is_ws c && Str.is_empty (Str.trim_end r))%bool eqn:E; [reflexivity|].
  simpl. rewrite IH, E. reflexivity.
Qed.

Lemma trim_start_head s :
  Str.trim_start s = ""
  \/ exists c r, Str.trim_start s = String c r /\ Str.is_ws c = false.
Proof.
  induction s as [|c r IH]; [left; reflexivity|]. simpl.
  destruct (Str.is_ws c) eqn:E; [exact IH|]. right. eauto.
Qed.

Lemma trim_idempotent s : Str.trim (Str.trim s) = Str.trim s.
Proof.
  unfold Str.trim. destruct (trim_start_head s) as [->|(c & r & -> & Hc)]; [reflexivity|].
  simpl. rewrite Hc. simpl. rewrite Hc. simpl. rewrite Hc. simpl.
  rewrite trim_end_idempotent. reflexivity.
Qed.

Lemma push_lines_result l t lines : forall h es,
  h !! l = Some (Arr t es) ->
  push_lines h (VRef l) lines
  = Normal (<[l := Arr t (es ++ map VRef (seq (length h) (length lines)))]>
              (h ++ map text_record lines)).
Proof.
  induction lines as [|v rest IH]; intros h es Hl.
  - simpl. rewrite !app_nil_r. rewrite list_insert_id by exact Hl. reflexivity.
  - assert (l < length h) as Hlt by (eapply lookup_lt_Some, Hl).
    cbn [push_lines]. unfold alloc. cbn iota beta. cbn [push_to]. unfold push.
    rewrite lookup_app_l by exact Hlt. rewrite Hl. cbn [mbind completion_bind].
    rewrite (IH _ (es ++ [VRef (length h)])).
    + f_equal. rewrite length_insert, length_app. simpl length.
      rewrite <- insert_app_l by (rewrite length_app; simpl; lia).
      rewrite list_insert_insert_eq.
      rewrite <- !app_assoc. simpl.
      replace (length h + 1) with (S (length h)) by lia. reflexivity.
    + apply list_lookup_insert_eq. rewrite length_app. simpl. lia.
Qed.

(** X19: in a freeform array the [buffer] handler appends one text record for
    each line of the payload that is not blank, trimmed and in order, and
    nothing else changes; in an object, or in an array of another subtype,
    it changes nothing. *)
Theorem buffer_appends_a_record_per_line (st : state) (l : loc)
    (t : option subtype) (es : list jsval) (k : option string) (text : string) :
  top st = VRef l ->
  heap st !! l = Some (Arr t es) ->
  buffer st k (Some text)
  = Normal
      (if bool_decide (t = Some Freeform) then
         {| heap := <[l := Arr t (es ++ map VRef (seq (length (heap st))
                                                    (length (kept_lines text))))]>
                      (heap st ++ map text_record (kept_lines text));
            stack := stack st |}
       else st).
Proof.
  intros Htop Hl. unfold buffer. rewrite Htop. simpl type_tag. rewrite Hl.
  destruct t as [[| |]|]; try reflexivity.
  rewrite bool_decide_eq_true_2 by reflexivity. cbn [mbind completion_bind].
  fold (kept_lines text). rewrite (push_lines_result l _ _ _ es Hl). reflexivity.
Qed.

Lemma buffer_appends_a_record_per_line_witness :
  buffer {| heap := [Obj {[ "notes" := VRef 1 ]}; Arr (Some Freeform) []];
            stack := [VRef 1; VRef root] |} None
    (Some ("Line one" +:+ String Str.newline (" " +:+ String Str.newline " Line two ")))
  = Normal
      {| heap := [Obj {[ "notes" := VRef 1 ]}; Arr (Some Freeform) [VRef 2; VRef 3];
                  text_record "Line one"; text_record "Line two"];
         stack := [VRef 1; VRef root] |}.
Proof.
  etrans.
  - apply (buffer_appends_a_record_per_line
             {| heap := [Obj {[ "notes" := VRef 1 ]}; Arr (Some Freeform) []];
                stack := [VRef 1; VRef root] |} 1 (Some Freeform) [] None);
      reflexivity.
  - vm_compute. reflexivity.
Defined.

Lemma setPath_single opts h o m k t v :
  normalizeKeypath opts (Some k) = Normal [t] ->
  h !! o = Some (Obj m) ->
  Str.remove_all "+" t <> "__proto__" \/ is_Some (m !! Str.remove_all "+" t) ->
  setPath opts h (VRef o) (Some k) v
  = Normal (<[o := Obj (<[Str.remove_all "+" t :=
                            onValue opts (trim_if_string v) (Str.remove_all "+" t)]> m)]> h,
            VRef o).
Proof.
  intros Hk Ho Hown. unfold setPath. rewrite Hk. simpl. rewrite Ho.
  replace (String.eqb (Str.remove_all "+" t) "__proto__"
           && negb (bool_decide (is_Some (m !! Str.remove_all "+" t))))%bool with false;
    [reflexivity|].
  symmetry. destruct Hown as [Hne|Hown].
  - apply String.eqb_neq in Hne. rewrite Hne. reflexivity.
  - rewrite bool_decide_eq_true_2 by exact Hown. apply andb_false_r.
Qed.

Lemma getPath_single opts h o m k t :
  normalizeKeypath opts (Some k) = Normal [t] ->
  h !! o = Some (Obj m) ->
  is_Some (m !! t) \/ inherited [] t = false ->
  getPath opts h (VRef o) (Some k) = Normal (default VUndef (m !! t)).
Proof.
  intros Hk Ho Hown. unfold getPath. rewrite Hk. simpl. rewrite Ho.
  destruct (m !! t) as [x|] eqn:E; [reflexivity|].
  destruct Hown as [[x Hx]|Hin]; [discriminate|].
  apply inherited_member_none, Hin.
Qed.

(** X20: fan-out in a standard array, for a key of one segment that is not
    the name of a member of [Object.prototype]: a value goes into a new
    element when the array is empty or when the last element already holds
    a truthy value under that key, and into the last element otherwise (so
    a key whose value there is the empty string is written over, it does
    not start an element). *)
Theorem standard_array_fan_out (opts : options) (st : state) (a : loc)
    (es : list jsval) (k t v : string) :
  top st = VRef a ->
  heap st !! a = Some (Arr (Some Standard) es) ->
  normalizeKeypath opts (Some k) = Normal [t] ->
  inherited [] t = false ->
  Str.remove_all "+" t <> "__proto__" ->
  let h := heap st in
  let t' := Str.remove_all "+" t in
  let x := onValue opts (VStr (Str.trim v)) t' in
  let started :=
    {| heap := <[length h := Obj (<[t' := x]> ∅)]>
                 (<[a := Arr (Some Standard) (es ++ [VRef (length h)])]> (h ++ [Obj ∅]));
       stack := stack st |} in
  (es = [] -> value opts st (Some k) (Some v) = Normal started)
  /\ (forall o m,
        last es = Some (VRef o) -> h !! o = Some (Obj m) ->
        value opts st (Some k) (Some v)
        = Normal (if truthy (default VUndef (m !! t)) then started
                  else {| heap := <[o := Obj (<[t' := x]> m)]> h; stack := stack st |})).
Proof.
  intros Htop Ha Hk Hin Hproto. cbv zeta.
  set (h := heap st) in *.
  set (t' := Str.remove_all "+" t).
  set (x := onValue opts (VStr (Str.trim v)) t').
  set (started :=
         {| heap := <[length h := Obj (<[t' := x]> ∅)]>
                      (<[a := Arr (Some Standard) (es ++ [VRef (length h)])]> (h ++ [Obj ∅]));
            stack := stack st |}).
  assert (a < length h) as Hlt by (eapply lookup_lt_Some, Ha).
  assert (is_array h (VRef a) = true) as Harr
    by (unfold is_array; rewrite Ha; reflexivity).
  assert (type_tag h (VRef a) = Some Standard) as Htag
    by (unfold type_tag; rewrite Ha; reflexivity).
  assert (last_element h (VRef a) = default VUndef (last es)) as Hle
    by (unfold last_element; rewrite Ha; reflexivity).
  assert (forall lastv,
            last_element h (VRef a) = lastv ->
            forall fresh : bool,
              (if negb (truthy lastv) then Normal true
               else found ← getPath opts h lastv (Some k); Normal (truthy found))
              = Normal fresh ->
              value opts st (Some k) (Some v)
              = (if fresh then Normal started
                 else '(h2, _) ← setPath opts h lastv (Some k)
                                   (trim_if_string (VStr (Str.trim v)));
                      Normal (with_heap st h2))) as Hvalue.
  { intros lastv Hlast fresh Hfresh. unfold value. rewrite Htop. fold h.
    cbn [trim_payload mbind completion_bind]. rewrite Harr, Htag.
    unfold append. rewrite Harr. unfold addToArray. rewrite Htag.
    unfold addToArray_default. rewrite Htag.
    rewrite bool_decide_eq_false_2 by discriminate.
    cbn [mbind completion_bind]. rewrite Hlast, Hfresh. cbn [mbind completion_bind].
    destruct fresh.
    - unfold alloc. cbn iota beta. cbn [push_to]. unfold push.
      rewrite lookup_app_l by exact Hlt. rewrite Ha.
      cbn [mbind completion_bind].
      rewrite (setPath_single opts _ (length h) ∅ k t _ Hk).
      + cbn [mbind completion_bind]. simpl trim_if_string.
        rewrite !trim_idempotent. reflexivity.
      + rewrite list_lookup_insert_ne by lia. apply list_lookup_middle. reflexivity.
      + left. exact Hproto.
    - cbn [mbind completion_bind].
      destruct (setPath opts h lastv (Some k) (trim_if_string (VStr (Str.trim v))))
        as [[h2 b]| |]; reflexivity. }
  split.
  - intros Hes. apply (Hvalue VUndef (eq_trans Hle (f_equal (fun l => default VUndef (last l)) Hes)) true).
    reflexivity.
  - intros o m Hlast Ho.
    assert (last_element h (VRef a) = VRef o) as Hlo
      by (rewrite Hle, Hlast; reflexivity).
    rewrite (Hvalue (VRef o) Hlo (truthy (default VUndef (m !! t)))).
    + destruct (truthy (default VUndef (m !! t))); [reflexivity|].
      rewrite (setPath_single opts h o m k t _ Hk Ho (or_introl Hproto)).
      cbn [mbind completion_bind].
      simpl trim_if_string. rewrite !trim_idempotent. reflexivity.
    + simpl negb. rewrite (getPath_single opts h o m k t Hk Ho (or_intror Hin)).
      reflexivity.
Qed.

Lemma standard_array_fan_out_witness :
  value (plain false)
    {| heap := [Obj {[ "items" := VRef 1 ]}; Arr (Some Standard) [VRef 2];
                Obj {[ "name" := VStr "a" ]}];
       stack := [VRef 1; VRef root] |} (Some "name") (Some " b ")
  = Normal
      {| heap := [Obj {[ "items" := VRef 1 ]}; Arr (Some Standard) [VRef 2; VRef 3];
                  Obj {[ "name" := VStr "a" ]}; Obj {[ "name" := VStr "b" ]}];
         stack := [VRef 1; VRef root] |}.
Proof.
  destruct (standard_array_fan_out (plain false)
              {| heap := [Obj {[ "items" := VRef 1 ]}; Arr (Some Standard) [VRef 2];
                          Obj {[ "name" := VStr "a" ]}];
                 stack := [VRef 1; VRef root] |} 1 [VRef 2] "name" "name" " b ")
    as [_ H]; [reflexivity | reflexivity | reflexivity | reflexivity | discriminate |].
  etrans; [apply (H 2 {[ "name" := VStr "a" ]}); reflexivity|].
  vm_compute. reflexivity.
Defined.

(** X21: a simple array: in an array that has no subtype yet or is simple, the
    [simple] handler appends the trimmed payload and the array is simple
    from then on; in a simple array the [value] handler changes nothing. *)
Theorem simple_array_takes_bare_values (opts : options) (st : state) (a : loc)
    (t : option subtype) (es : list jsval) (k : option string) (v : string) :
  top st = VRef a ->
  heap st !! a = Some (Arr t es) ->
  t = None \/ t = Some Simple ->
  simple opts st k (Some v)
  = Normal {| heap := <[a := Arr (Some Simple) (es ++ [VStr (Str.trim v)])]> (heap st);
              stack := stack st |}
  /\ (t = Some Simple -> value opts st k (Some v) = Normal st).
Proof.
  intros Htop Ha Ht.
  assert (a < length (heap st)) as Hlt by (eapply lookup_lt_Some, Ha).
  split.
  - unfold simple. rewrite Htop. simpl is_array. simpl type_tag. rewrite Ha.
    assert (assignType_to (heap st) (VRef a) Simple
            = Normal (<[a := Arr (Some Simple) es]> (heap st))) as Hassign.
    { simpl. unfold assignType. rewrite Ha.
      destruct Ht as [-> | ->]; [reflexivity|].
      rewrite decide_True by reflexivity. rewrite list_insert_id by exact Ha. reflexivity. }
    assert ((h1 ← assignType_to (heap st) (VRef a) Simple;
             v0 ← trim_payload (Some v); push_to h1 (VRef a) (VStr v0))
            = Normal (<[a := Arr (Some Simple) (es ++ [VStr (Str.trim v)])]> (heap st)))
      as Hpush.
    { rewrite Hassign. cbn [mbind completion_bind trim_payload push_to]. unfold push.
      rewrite list_lookup_insert_eq by exact Hlt. rewrite list_insert_insert_eq.
      reflexivity. }
    destruct Ht as [-> | ->]; rewrite Hpush; cbn [mbind completion_bind];
      simpl type_tag; rewrite list_lookup_insert_eq by exact Hlt;
      rewrite bool_decide_eq_false_2 by discriminate; reflexivity.
  - intros ->. unfold value. rewrite Htop. cbn [trim_payload mbind completion_bind].
    simpl is_array. simpl type_tag. rewrite Ha. reflexivity.
Qed.

Lemma simple_array_takes_bare_values_witness :
  simple (plain false)
    {| heap := [Obj {[ "tags" := VRef 1 ]}; Arr None []];
       stack := [VRef 1; VRef root] |} None (Some " red ")
  = Normal {| heap := [Obj {[ "tags" := VRef 1 ]}; Arr (Some Simple) [VStr "red"]];
              stack := [VRef 1; VRef root] |}.
Proof.
  destruct (simple_array_takes_bare_values (plain false)
              {| heap := [Obj {[ "tags" := VRef 1 ]}; Arr None []];
                 stack := [VRef 1; VRef root] |} 1 None [] None " red ")
    as [H _]; [reflexivity | reflexivity | left; reflexivity |].
  etrans; [exact H|]. vm_compute. reflexivity.
Defined.

(** *** Making the way for a key path *)

(** X5: [setPath] with a key of two segments, on an object that holds no
    object under the first one (nothing at all, a scalar, or an inherited
    method), puts a new object there and stores the value in it under the
    second segment; nothing else changes.  (The two names must not be
    [__proto__], unless the object has a property of that name itself: an
    assignment to it runs the inherited setter.) *)
Theorem setPath_makes_the_way (opts : options) (h : list cell) (o : loc)
    (m : gmap string jsval) (k t1 t2 : string) (v : jsval) :
  normalizeKeypath opts (Some k) = Normal [t1; t2] ->
  h !! o = Some (Obj m) ->
  (forall c, m !! t1 <> Some (VRef c)) ->
  t1 <> "__proto__" \/ is_Some (m !! t1) ->
  Str.remove_all "+" t2 <> "__proto__" ->
  let t2' := Str.remove_all "+" t2 in
  setPath opts h (VRef o) (Some k) v
  = Normal (<[length h := Obj {[ t2' := onValue opts (trim_if_string v) t2' ]}]>
              (<[o := Obj (<[t1 := VRef (length h)]> m)]> (h ++ [Obj ∅])),
            VRef (length h)).
Proof.
  intros Hk Ho Hnoobj Hown Hproto. cbv zeta.
  assert (o < length h) as Hlt by (eapply lookup_lt_Some, Ho).
  unfold setPath. rewrite Hk. cbn [mbind completion_bind].
  change (pop_terminal [t1; t2]) with (Some t2, [t1]).
  cbn [mbind completion_bind setPath_loop].
  assert (exists present current,
            has_property h (VRef o) t1 = Normal present
            /\ (if present then get_property h (VRef o) t1 else Normal VUndef)
               = Normal current
            /\ (negb present || negb (String.eqb (typeof current) "object"))%bool = true)
    as (present & current & -> & Hcur & Hcond).
  { unfold has_property, get_property. rewrite Ho.
    destruct (m !! t1) as [x|] eqn:Ex.
    - exists true, x. rewrite bool_decide_eq_true_2 by eauto.
      split; [reflexivity|]. split; [reflexivity|].
      destruct x; try reflexivity. exfalso. exact (Hnoobj _ eq_refl).
    - destruct Hown as [Hne|[x Hx]]; [|discriminate].
      rewrite bool_decide_eq_false_2 by (intros [x Hx]; discriminate).
      unfold inherited_member. apply String.eqb_neq in Hne. rewrite Hne.
      destruct (inherited [] t1).
      + exists true, (VFun t1). auto.
      + exists false, VUndef. auto. }
  cbn [mbind completion_bind]. rewrite Hcur. cbn [mbind completion_bind].
  rewrite Hcond. unfold alloc. cbn iota beta.
  assert (set_property (h ++ [Obj ∅]) (VRef o) t1 (VRef (length h))
          = Normal (<[o := Obj (<[t1 := VRef (length h)]> m)]> (h ++ [Obj ∅]))) as ->.
  { unfold set_property. rewrite lookup_app_l by exact Hlt. rewrite Ho.
    replace (String.eqb t1 "__proto__" && negb (bool_decide (is_Some (m !! t1))))%bool
      with false; [reflexivity|].
    symmetry. destruct Hown as [Hne|Hsome].
    - apply String.eqb_neq in Hne. rewrite Hne. reflexivity.
    - rewrite bool_decide_eq_true_2 by exact Hsome. apply andb_false_r. }
  cbn [mbind completion_bind].
  assert (get_property (<[o := Obj (<[t1 := VRef (length h)]> m)]> (h ++ [Obj ∅]))
            (VRef o) t1 = Normal (VRef (length h))) as ->.
  { unfold get_property.
    rewrite list_lookup_insert_eq by (rewrite length_app; simpl; lia).
    rewrite lookup_insert_eq. reflexivity. }
  cbn [mbind completion_bind].
  unfold set_property.
  rewrite list_lookup_insert_ne by lia.
  rewrite list_lookup_middle by reflexivity.
  apply String.eqb_neq in Hproto. rewrite Hproto. reflexivity.
Qed.

Lemma setPath_makes_the_way_witness :
  setPath (plain false) [Obj {[ "a" := VStr "x" ]}] (VRef root) (Some "a.b") (VStr " v ")
  = Normal ([Obj {[ "a" := VRef 1 ]}; Obj {[ "b" := VStr "v" ]}], VRef 1).
Proof.
  etrans.
  - apply (setPath_makes_the_way (plain false) [Obj {[ "a" := VStr "x" ]}] root
             {[ "a" := VStr "x" ]} "a.b" "a" "b" (VStr " v ")).
    + reflexivity.
    + reflexivity.
    + intros c. vm_compute. discriminate.
    + left. discriminate.
    + discriminate.
  - vm_compute. reflexivity.
Defined.

(** *** Opening an object or an array under a plain key *)

Lemma plain_key_segments b k :
  no_dot k = true -> k <> "" ->
  normalizeKeypath (plain b) (Some k) = Normal [k] /\ Str.first_is "." k = false.
Proof.
  intros Hd Hne. unfold normalizeKeypath. rewrite (split_no_dot k Hd).
  destruct k as [|c r]; [contradiction|]. split; [reflexivity|].
  simpl in Hd. apply andb_true_iff in Hd as [Hc _]. apply negb_true_iff in Hc.
  unfold Str.first_is. simpl. exact Hc.
Qed.

(** X22: opening an object that is there: when the root already holds an object
    under the key, [object] with that key changes nothing in the store and
    makes that object the current scope, directly above the root. *)
Theorem object_reopens_an_object (b : bool) (st : state) (k : string)
    (m : gmap string jsval) (o : loc) :
  no_dot k = true -> k <> "" -> Str.remove_all "+" k = k ->
  heap st !! root = Some (Obj m) ->
  m !! k = Some (VRef o) ->
  object (plain b) st (Some k)
  = Normal {| heap := heap st; stack := [VRef o; VRef root] |}.
Proof.
  intros Hd Hne Hplus Hroot Hk.
  destruct (plain_key_segments b k Hd Hne) as [Hsegs Hfirst].
  unfold object, getTarget. rewrite Hfirst. cbn [mbind completion_bind reset heap truthy].
  rewrite (getPath_single (plain b) (heap st) root m k k Hsegs Hroot), Hk by eauto.
  cbn [mbind completion_bind default typeof]. simpl negb. cbv iota.
  unfold append. unfold is_array. rewrite Hroot.
  rewrite (setPath_single (plain b) (heap st) root m k k _ Hsegs Hroot)
    by (right; rewrite Hplus; eauto).
  cbn [mbind completion_bind]. rewrite Hplus. simpl.
  rewrite (insert_id m k (VRef o) Hk), (list_insert_id _ _ _ Hroot). reflexivity.
Qed.

Lemma object_reopens_an_object_witness :
  object (plain false)
    {| heap := [Obj {[ "a" := VRef 1 ]}; Obj {[ "x" := VStr "1" ]}];
       stack := [VRef root] |} (Some "a")
  = Normal {| heap := [Obj {[ "a" := VRef 1 ]}; Obj {[ "x" := VStr "1" ]}];
              stack := [VRef 1; VRef root] |}.
Proof.
  apply (object_reopens_an_object false
           {| heap := [Obj {[ "a" := VRef 1 ]}; Obj {[ "x" := VStr "1" ]}];
              stack := [VRef root] |} "a" {[ "a" := VRef 1 ]} 1); try reflexivity.
  discriminate.
Defined.

(** X23: opening an array: [array] with a one-segment key that has no dot and
    is not [__proto__] once its plus signs are gone stores a new empty
    array under the key without its plus signs, in place of whatever the
    root held there, and makes it the current scope directly above the
    root; the array is freeform when the key starts with a plus and has no
    subtype yet when it does not. *)
Theorem array_opens_a_new_array (b : bool) (st : state) (k : string)
    (m : gmap string jsval) :
  no_dot k = true -> k <> "" ->
  Str.remove_all "+" k <> "__proto__" ->
  heap st !! root = Some (Obj m) ->
  array (plain b) st (Some k)
  = Normal
      {| heap := <[root := Obj (<[Str.remove_all "+" k := VRef (length (heap st))]> m)]>
                   (heap st ++ [Arr (if Str.first_is "+" k then Some Freeform else None) []]);
         stack := [VRef (length (heap st)); VRef root] |}.
Proof.
  intros Hd Hne Hproto Hroot.
  destruct (plain_key_segments b k Hd Hne) as [Hsegs Hfirst].
  assert (root < length (heap st)) as Hlt by (eapply lookup_lt_Some, Hroot).
  unfold array, getTarget. rewrite Hfirst. cbn [mbind completion_bind reset heap truthy].
  unfold alloc. cbn iota beta. rewrite Hsegs. cbn [mbind completion_bind last].
  assert (forall h1,
            h1 !! root = Some (Obj m) ->
            (h2 ← append (plain b) h1 (VRef root) (Some k) (VRef (length (heap st)));
             Normal (pushContext (with_heap {| heap := heap st; stack := [VRef root] |} h2)
                       (VRef (length (heap st)))))
            = Normal {| heap := <[root := Obj (<[Str.remove_all "+" k :=
                                                   VRef (length (heap st))]> m)]> h1;
                        stack := [VRef (length (heap st)); VRef root] |}) as Happend.
  { intros h1 H1. unfold append, is_array. rewrite H1.
    rewrite (setPath_single (plain b) h1 root m k k _ Hsegs H1 (or_introl Hproto)).
    reflexivity. }
  destruct (Str.first_is "+" k).
  - unfold assignType. rewrite list_lookup_middle by reflexivity.
    cbn [mbind completion_bind].
    rewrite Happend.
    + f_equal. f_equal. f_equal.
      replace (length (heap st)) with (length (heap st) + 0) at 1 by lia.
      rewrite insert_app_r. reflexivity.
    + rewrite list_lookup_insert_ne by lia. rewrite lookup_app_l by exact Hlt. exact Hroot.
  - cbn [mbind completion_bind]. rewrite Happend; [reflexivity|].
    rewrite lookup_app_l by exact Hlt. exact Hroot.
Qed.

Lemma array_opens_a_new_array_witness :
  array (plain false)
    {| heap := [Obj {[ "list" := VStr "old" ]}]; stack := [VRef root] |} (Some "+list")
  = Normal {| heap := [Obj {[ "list" := VRef 1 ]}; Arr (Some Freeform) []];
              stack := [VRef 1; VRef root] |}.
Proof.
  etrans.
  - apply (array_opens_a_new_array false
             {| heap := [Obj {[ "list" := VStr "old" ]}]; stack := [VRef root] |}
             "+list" {[ "list" := VStr "old" ]});
      [reflexivity | discriminate | discriminate | reflexivity].
  - vm_compute. reflexivity.
Defined.

(** *** Key paths that lead into an array, keys that name inherited members *)

(** X25: a key path that leads into an array reaches its elements and its
    length: after a simple array "a" is closed, value("a.length", "0")
    cuts it down to no element, and object("a.0") puts a new object in the
    place of its first element, a string; the array keeps its subtype. *)
Theorem key_path_reaches_into_an_array :
  fst (assemble (plain false) cut_stream)
  = Normal [ Obj {[ "a" := VRef 1 ]}; Arr (Some Simple) [] ]
  /\ fst (assemble (plain false) replaced_stream)
     = Normal [ Obj {[ "a" := VRef 1 ]}; Arr (Some Simple) [VRef 2]; Obj ∅ ].
Proof. split; vm_compute; reflexivity. Qed.

(** X26: in a standard array a value whose key names a method that every
    object inherits starts a new element although the last element has no
    such property of its own: [getPath] finds the inherited method there,
    which is truthy. *)
Theorem inherited_key_starts_an_element :
  fst (assemble (plain false) inherited_key_stream)
  = Normal [ Obj {[ "items" := VRef 1 ]}; Arr (Some Standard) [VRef 2; VRef 3];
             Obj {[ "name" := VStr "a" ]}; Obj {[ "constructor" := VStr "c" ]} ]
  /\ getPath (plain false) [Obj {[ "name" := VStr "a" ]}] (VRef root) (Some "constructor")
     = Normal (VFun "constructor").
Proof. split; vm_compute; reflexivity. Qed.
